(** * Reverse DNS cache and snooper statistics of the DNS traffic snooper

    A shallow embedding of [pkg/ebpf]'s [reverseDNSCache] (address -> names
    cache with sliding expiration, a capacity guard and a background sweep)
    and of the statistics loop of [SocketFilterSnooper], together with the
    properties the specification states about them. *)

From Stdlib Require Import ZArith Lia Ascii String.
From stdpp Require Import base decidable option list sorting gmap strings.

Local Open Scope Z_scope.

(** ** Go primitives used by the cache *)

(** Two's complement conversion to a signed 64-bit integer, as done by
    [int64(x)] and by the arithmetic of [atomic.AddInt64]. *)
Definition int64 (z : Z) : Z := (z + 2 ^ 63) mod 2 ^ 64 - 2 ^ 63.

Definition add64 (x y : Z) : Z := int64 (x + y).
Definition sub64 (x y : Z) : Z := int64 (x - y).

(** Package [time]: an instant is a number of nanoseconds since the Unix
    epoch, a [Duration] a number of nanoseconds.  [Unix] is the number of
    whole seconds since the epoch (rounded towards minus infinity, as the
    seconds and nanoseconds of a Go [Time] are kept apart with a non-negative
    nanosecond part).  Instants stay in the range where the 64-bit arithmetic
    of the package does not overflow, so they are unbounded integers here. *)
Module time.
Definition Time := Z.
Definition Duration := Z.

Definition Nanosecond : Duration := 1.
Definition Millisecond : Duration := 1000000.
Definition Second : Duration := 1000000000.
Definition Minute : Duration := 60 * Second.

Definition Add (t : Time) (d : Duration) : Time := t + d.
Definition Unix (t : Time) : Z := t / Second.
End time.

(** Package [sort]: binary search and sorting of string slices.  Strings are
    compared byte by byte ([String.leb] is the lexicographic order on the
    character codes). *)
Module sort.

(** The loop of [sort.Search]: [i, j := 0, n; for i < j { h := (i+j)/2;
    if !f(h) { i = h + 1 } else { j = h } }; return i].  The interval
    shrinks at every turn, so [j - i] turns are enough. *)
Fixpoint Search_loop (fuel : nat) (f : nat → bool) (i j : nat) : nat :=
  match fuel with
  | O => i
  | S fuel' =>
      if (i <? j)%nat then
        let h := ((i + j) / 2)%nat in
        if negb (f h) then Search_loop fuel' f (h + 1)%nat j
        else Search_loop fuel' f i h
      else i
  end.

Definition Search (n : nat) (f : nat → bool) : nat := Search_loop n f 0%nat n.

(** [a[i] >= x] *)
Definition ge_at (a : list string) (x : string) (i : nat) : bool :=
  match a !! i with
  | Some s => String.leb x s
  | None => false
  end.

Definition SearchStrings (a : list string) (x : string) : nat :=
  Search (length a) (ge_at a x).

(** The order [sort.Strings] sorts by. *)
Definition string_le (s1 s2 : string) : Prop := String.leb s1 s2 = true.
Definition string_lt (s1 s2 : string) : Prop := String.ltb s1 s2 = true.

#[export] Instance string_le_dec : RelDecision string_le.
Proof. intros s1 s2. unfold string_le. apply _. Defined.

(** [sort.Strings] sorts in increasing order; the sorted arrangement of a
    list of strings is unique, so any sorting algorithm models it. *)
Definition Strings (a : list string) : list string := merge_sort string_le a.

End sort.

(** ** The cache entry *)

Record dnsCacheVal := mkVal {
  names : list string;
  expiration : Z
}.

(** [func (v *dnsCacheVal) merge(name string)] *)
Definition merge (v : dnsCacheVal) (name : string) : dnsCacheVal :=
  if (sort.SearchStrings (names v) name <? length (names v))%nat then v
  else {| names := sort.Strings (names v ++ [name]);
          expiration := expiration v |}.

(** [func (v *dnsCacheVal) copy() []string] *)
Definition copy (v : dnsCacheVal) : list string :=
  take (length (names v)) (names v).

(** ** Addresses, translations and connections *)

(** Modelled from the spec: [util.Address] is declared outside the cache's
    file; it is an immutable IPv4 or IPv6 address compared by value.  The
    payload is the address bytes read as a big-endian number. *)
Inductive Address :=
  | v4Address (b : N)
  | v6Address (b : N).

#[export] Instance Address_eq_dec : EqDecision Address.
Proof. solve_decision. Defined.

#[export] Instance Address_countable : Countable Address.
Proof.
  refine (inj_countable'
            (λ a, match a with v4Address b => inl b | v6Address b => inr b end)
            (λ s, match s with inl b => v4Address b | inr b => v6Address b end) _).
  intros []; reflexivity.
Defined.

(** [type translation struct { name string; ips map[util.Address]struct{} }] *)
Record translation := mkTranslation {
  name : string;
  ips : gset Address
}.

(** [ConnectionStats] is declared with the connection tracker; the cache reads
    its [Source] and [Dest] addresses only. *)
Module ConnectionStats.
Record t := mk { Source : Address; Dest : Address }.
End ConnectionStats.

(** [NamePair]: the names of the two ends of a connection.  A Go slice is
    either [nil] ([None]) or an allocated list of strings. *)
Module NamePair.
Record t := mk { Source : option (list string); Dest : option (list string) }.
End NamePair.

(** ** The cache *)

(** [len(m)] of a Go map, as an [int]. *)
Definition map_len {V} (m : gmap Address V) : Z := Z.of_nat (size m).

(** [type reverseDNSCache struct]; the mutex and the exit channel carry no
    data.  Every operation below runs with the mutex held, so it is a
    function from cache states to cache states. *)
Record reverseDNSCache := mkCache {
  data : gmap Address dnsCacheVal;
  ttl : time.Duration;
  size : Z;
  len : Z;
  lookups : Z;
  resolved : Z
}.

Record cacheStats := mkStats {
  stats_lookups : Z;
  stats_resolved : Z;
  stats_len : Z
}.

(** [newReverseDNSCache]: the state of a fresh cache. *)
Definition newReverseDNSCache (size : Z) (ttl : time.Duration) : reverseDNSCache :=
  {| data := ∅; ttl := ttl; size := size; len := 0; lookups := 0; resolved := 0 |}.

Definition with_data (c : reverseDNSCache) (d : gmap Address dnsCacheVal) : reverseDNSCache :=
  {| data := d; ttl := ttl c; size := size c; len := len c;
     lookups := lookups c; resolved := resolved c |}.

Definition with_len (c : reverseDNSCache) (n : Z) : reverseDNSCache :=
  {| data := data c; ttl := ttl c; size := size c; len := n;
     lookups := lookups c; resolved := resolved c |}.

(** The body of the loop of [Add] for one address. *)
Definition Add_step (name : string) (exp : Z)
    (d : gmap Address dnsCacheVal) (addr : Address) : gmap Address dnsCacheVal :=
  match d !! addr with
  | Some val =>
      <[addr := merge {| names := names val; expiration := exp |} name]> d
  | None =>
      <[addr := {| names := [name]; expiration := exp |}]> d
  end.

(** [for addr := range translation.ips { ... }], over the addresses in the
    order the iteration visits them. *)
Definition Add_loop (name : string) (exp : Z)
    (addrs : list Address) (d : gmap Address dnsCacheVal) : gmap Address dnsCacheVal :=
  foldl (Add_step name exp) d addrs.

(** [func (c *reverseDNSCache) Add(translation *translation, now time.Time) bool];
    a [nil] translation is [None]. *)
Definition Add (c : reverseDNSCache) (tr : option translation) (now : time.Time)
    : bool * reverseDNSCache :=
  match tr with
  | None => (false, c)
  | Some tr =>
      if map_len (data c) >=? size c then (false, c)
      else
        let exp := time.Unix (time.Add now (ttl c)) in
        let d := Add_loop (name tr) exp (elements (ips tr)) (data c) in
        (true, with_len (with_data c d) (int64 (map_len d)))
  end.

(** [func (c *reverseDNSCache) getNamesForIP(ip util.Address, expiration int64) []string] *)
Definition getNamesForIP (d : gmap Address dnsCacheVal) (ip : Address) (expiration : Z)
    : option (list string) * gmap Address dnsCacheVal :=
  match d !! ip with
  | None => (None, d)
  | Some val =>
      let val' := {| names := names val; expiration := expiration |} in
      (Some (copy val'), <[ip := val']> d)
  end.

(** The loop of [Get]: the pairs in input order, the number of resolved
    destinations and the map after the touches. *)
Fixpoint Get_loop (conns : list ConnectionStats.t) (expiration : Z)
    (d : gmap Address dnsCacheVal) (resolved : Z)
    : list NamePair.t * Z * gmap Address dnsCacheVal :=
  match conns with
  | [] => ([], resolved, d)
  | conn :: rest =>
      let '(src, d1) := getNamesForIP d (ConnectionStats.Source conn) expiration in
      let '(dst, d2) := getNamesForIP d1 (ConnectionStats.Dest conn) expiration in
      let resolved' := if dst is Some _ then resolved + 1 else resolved in
      let '(pairs, r, d3) := Get_loop rest expiration d2 resolved' in
      (NamePair.mk src dst :: pairs, r, d3)
  end.

(** [func (c *reverseDNSCache) Get(conns []ConnectionStats, now time.Time) []NamePair];
    the [nil] result for no connection is the empty list. *)
Definition Get (c : reverseDNSCache) (conns : list ConnectionStats.t) (now : time.Time)
    : list NamePair.t * reverseDNSCache :=
  if (length conns =? 0)%nat then ([], c)
  else
    let expiration := time.Unix (time.Add now (ttl c)) in
    let lookups' := Z.of_nat (length conns) in
    let '(pairs, resolved', d) := Get_loop conns expiration (data c) 0 in
    (pairs,
     {| data := d; ttl := ttl c; size := size c; len := len c;
        lookups := add64 (lookups c) (int64 lookups');
        resolved := add64 (resolved c) (int64 resolved') |}).

(** [func (c *reverseDNSCache) Len() int] *)
Definition Len (c : reverseDNSCache) : Z := len c.

(** [func (c *reverseDNSCache) Stats() cacheStats]: the two counters are
    swapped with zero. *)
Definition Stats (c : reverseDNSCache) : cacheStats * reverseDNSCache :=
  ({| stats_lookups := lookups c; stats_resolved := resolved c; stats_len := int64 (Len c) |},
   {| data := data c; ttl := ttl c; size := size c; len := len c;
      lookups := 0; resolved := 0 |}).

(** [func (c *reverseDNSCache) expire()], run at instant [start]
    ([time.Now()] in the source).  Deleting while ranging over a Go map is
    allowed, and an entry is kept exactly when [val.expiration > deadline]. *)
Definition expire (c : reverseDNSCache) (start : time.Time) : reverseDNSCache :=
  let deadline := time.Unix (time.Add start (- ttl c)) in
  let d := filter (λ kv : Address * dnsCacheVal, deadline < expiration kv.2) (data c) in
  with_len (with_data c d) (int64 (map_len d)).

(** ** The statistics loop of the snooper *)

(** What the capture source reports: [afpacket.Stats] (cumulative [int64]
    counters) and the kernel's socket statistics (cumulative [uint] counters
    read through [Packets()] and [Drops()]). *)
Module afpacket.
Record Stats := mkStats { Packets : Z; Polls : Z }.
Record SocketStatsV3 := mkSocketStats { sock_packets : Z; sock_drops : Z }.
Definition SocketStatsV3_Packets (s : SocketStatsV3) : Z := sock_packets s.
Definition SocketStatsV3_Drops (s : SocketStatsV3) : Z := sock_drops s.
End afpacket.

(** The packet telemetry of [SocketFilterSnooper]. *)
Record SocketFilterSnooper := mkSnooper {
  captured : Z;
  processed : Z;
  dropped : Z;
  polls : Z;
  decodingErrors : Z
}.

(** The local variables of [pollStats]. *)
Record pollStats_vars := mkVars {
  prevPolls : Z;
  prevProcessed : Z;
  prevCaptured : Z;
  prevDropped : Z
}.

(** What the [select] of the loop receives: a tick, with what the two reads
    of that tick return ([None] when [SocketStats] returns an error), or the
    exit signal. *)
Inductive pollStats_event :=
  | ticker_C (sourceStats : afpacket.Stats) (socketStats : option afpacket.SocketStatsV3)
  | exit.

(** The [case <-ticker.C] branch. *)
Definition pollStats_tick (st : SocketFilterSnooper * pollStats_vars)
    (sourceStats : afpacket.Stats) (socketStats : option afpacket.SocketStatsV3)
    : SocketFilterSnooper * pollStats_vars :=
  let '(s, v) := st in
  match socketStats with
  | None => (s, v)
  | Some socketStats =>
      ({| polls := add64 (polls s) (sub64 (afpacket.Polls sourceStats) (prevPolls v));
          processed := add64 (processed s) (sub64 (afpacket.Packets sourceStats) (prevProcessed v));
          captured := add64 (captured s)
                        (sub64 (int64 (afpacket.SocketStatsV3_Packets socketStats)) (prevCaptured v));
          dropped := add64 (dropped s)
                       (sub64 (int64 (afpacket.SocketStatsV3_Drops socketStats)) (prevDropped v));
          decodingErrors := decodingErrors s |},
       {| prevPolls := afpacket.Polls sourceStats;
          prevProcessed := afpacket.Packets sourceStats;
          prevCaptured := int64 (afpacket.SocketStatsV3_Packets socketStats);
          prevDropped := int64 (afpacket.SocketStatsV3_Drops socketStats) |})
  end.

(** The [for { select { ... } }] loop over the events it receives. *)
Fixpoint pollStats_loop (events : list pollStats_event)
    (st : SocketFilterSnooper * pollStats_vars) : SocketFilterSnooper * pollStats_vars :=
  match events with
  | [] => st
  | exit :: _ => st
  | ticker_C sourceStats socketStats :: rest =>
      pollStats_loop rest (pollStats_tick st sourceStats socketStats)
  end.

(** [func (s *SocketFilterSnooper) pollStats()]: the baselines start at zero. *)
Definition pollStats (s : SocketFilterSnooper) (events : list pollStats_event)
    : SocketFilterSnooper * pollStats_vars :=
  pollStats_loop events (s, {| prevPolls := 0; prevProcessed := 0;
                               prevCaptured := 0; prevDropped := 0 |}).

(** The ticks of a run on which the socket statistics could be read. *)
Definition tick_succeeds (e : pollStats_event) : bool :=
  match e with
  | ticker_C _ None => false
  | _ => true
  end.

(** ** The packet loop of the snooper *)

(** The snooper together with the cache it owns. *)
Definition snooper_state : Type := SocketFilterSnooper * reverseDNSCache.

Definition with_decodingErrors (s : SocketFilterSnooper) (n : Z) : SocketFilterSnooper :=
  {| captured := captured s; processed := processed s; dropped := dropped s;
     polls := polls s; decodingErrors := n |}.

(** [func (s *SocketFilterSnooper) processPacket(data []byte)].  The parser is
    declared outside the files at hand: [parsed] is what [s.parser.Parse(data)]
    returns for the packet ([None] for [nil]), [now] the reading of the clock. *)
Definition processPacket (st : snooper_state) (parsed : option translation)
    (now : time.Time) : snooper_state :=
  let '(s, c) := st in
  match parsed with
  | None => (with_decodingErrors s (add64 (decodingErrors s) 1), c)
  | Some translation => (s, (Add c (Some translation) now).2)
  end.

(** What [ZeroCopyReadPacketData] returns in one turn of the loop: a packet
    (given by what the parser makes of it), [syscall.EAGAIN] or another error. *)
Inductive read_result :=
  | read_packet (parsed : option translation)
  | read_EAGAIN
  | read_error.

(** One turn of the loop of [pollPackets]: the result of the read, whether the
    exit channel is closed when the [select] looks at it, and the clock. *)
Record pollPackets_turn := mkTurn {
  turn_read : read_result;
  turn_exit : bool;
  turn_now : time.Time
}.

(** [func (s *SocketFilterSnooper) pollPackets()], over the turns it goes
    through; the pause after an error other than [EAGAIN] changes no state. *)
Fixpoint pollPackets (turns : list pollPackets_turn) (st : snooper_state) : snooper_state :=
  match turns with
  | [] => st
  | turn :: rest =>
      if turn_exit turn then st
      else
        match turn_read turn with
        | read_packet parsed => pollPackets rest (processPacket st parsed (turn_now turn))
        | read_EAGAIN => pollPackets rest st
        | read_error => pollPackets rest st
        end
  end.


(** ** The docker-proxy filter *)

(** Conversion to a signed 32-bit integer, as done by [int32(x)]. *)
Definition int32 (z : Z) : Z := (z + 2 ^ 31) mod 2 ^ 32 - 2 ^ 31.

(** [strings.HasSuffix]: [len(s) >= len(suffix) && s[len(s)-len(suffix):] == suffix]. *)
Definition HasSuffix (s suffix : string) : bool :=
  (String.length suffix <=? String.length s)%nat &&
  String.eqb (substring (String.length s - String.length suffix) (String.length suffix) s)
             suffix.

Module dockerproxy.

(** The connections of the payload, declared with the payload's protocol:
    the fields the filter reads.  The two addresses are always present, ports
    are [int32] and [Type_] (the field [Type]) is the number of the
    connection type. *)
Module model.
Record Addr := mkAddr { Ip : string; Port : Z }.
Record Connection := mkConnection { Pid : Z; Laddr : Addr; Raddr : Addr; Type_ : Z }.
End model.

(** The processes of the host, declared with the process library: the fields
    the filter reads. *)
Module process.
Record FilledProcess := mkProcess { Pid : Z; Cmdline : list string }.
End process.

(** [type target struct { ip string; port int32; proto model.ConnectionType }] *)
Module target.
Record t := mk { ip : string; port : Z; proto : Z }.

#[global] Instance eq_dec : EqDecision t.
Proof. solve_decision. Defined.

#[global] Instance countable : Countable t.
Proof.
  refine (inj_countable' (λ x, (ip x, port x, proto x))
                         (λ y, mk y.1.1 y.1.2 y.2) _).
  intros []; reflexivity.
Defined.
End target.

(** [type proxy struct { pid int32; ip string; target target }] *)
Module proxy.
Record t := mk { pid : Z; ip : string; target : target.t }.
End proxy.

(** [type Filter struct].  The two maps hold pointers to the same proxy
    objects: [proxies] is the store of these objects by location, and the
    maps hold locations. *)
Record Filter := mkFilter {
  proxies : gmap nat proxy.t;
  proxyByTarget : gmap target.t nat;
  proxyByPID : gmap Z nat
}.

(** [new(Filter)]: no map, which reads as an empty map. *)
Definition new_Filter : Filter :=
  {| proxies := ∅; proxyByTarget := ∅; proxyByPID := ∅ |}.

Section extract.

(** [strconv.Atoi] ([None] for an error) and the table
    [model.ConnectionType_value] of the payload's protocol. *)
Context (Atoi : string → option Z) (ConnectionType_value : gmap string Z).

(** The [switch] of [extractProxyTarget] on [p.Cmdline[i]], with
    [p.Cmdline[i+1]]; [None] is the [return nil] of a branch. *)
Definition extract_step (flag value : string) (tg : target.t) : option target.t :=
  if String.eqb flag "-container-ip" then
    Some {| target.ip := value; target.port := target.port tg;
            target.proto := target.proto tg |}
  else if String.eqb flag "-container-port" then
    match Atoi value with
    | None => None
    | Some port =>
        Some {| target.ip := target.ip tg; target.port := int32 port;
                target.proto := target.proto tg |}
    end
  else if String.eqb flag "-proto" then
    match ConnectionType_value !! value with
    | None => None
    | Some proto =>
        Some {| target.ip := target.ip tg; target.port := target.port tg;
                target.proto := proto |}
    end
  else Some tg.

(** [for i := 0; i < len(p.Cmdline)-1; i++ { ... }] on the arguments from
    index [i] on. *)
Fixpoint extract_loop (args : list string) (tg : target.t) : option target.t :=
  match args with
  | flag :: ((value :: _) as rest) =>
      match extract_step flag value tg with
      | Some tg' => extract_loop rest tg'
      | None => None
      end
  | _ => Some tg
  end.

(** [func extractProxyTarget(p *process.FilledProcess) *proxy] *)
Definition extractProxyTarget (p : process.FilledProcess) : option proxy.t :=
  match process.Cmdline p with
  | [] => None
  | arg0 :: _ =>
      if negb (HasSuffix arg0 "docker-proxy") then None
      else
        match extract_loop (process.Cmdline p)
                {| target.ip := ""; target.port := 0; target.proto := 0 |} with
        | None => None
        | Some tg =>
            if String.eqb (target.ip tg) "" || (target.port tg =? 0) then None
            else Some {| proxy.pid := process.Pid p; proxy.ip := ""; proxy.target := tg |}
        end
  end.

(** The body of the loop of [LoadProxies]; the proxy is a new object. *)
Definition LoadProxies_step (f : Filter) (p : process.FilledProcess) : Filter :=
  match extractProxyTarget p with
  | None => f
  | Some px =>
      let l := fresh (dom (proxies f)) in
      {| proxies := <[l := px]> (proxies f);
         proxyByPID := <[proxy.pid px := l]> (proxyByPID f);
         proxyByTarget := <[proxy.target px := l]> (proxyByTarget f) |}
  end.

(** [func (f *Filter) LoadProxies(procs map[int32]*process.FilledProcess)],
    over the processes in the order the iteration visits them; the two maps
    are made anew. *)
Definition LoadProxies (procs : list process.FilledProcess) : Filter :=
  foldl LoadProxies_step new_Filter procs.

(** [func NewFilter() *Filter]; [procs] is what [process.AllProcesses()]
    returns, [None] for an error. *)
Definition NewFilter (procs : option (list process.FilledProcess)) : Filter :=
  match procs with
  | Some procs => LoadProxies procs
  | None => new_Filter
  end.

End extract.

(** [func (f *Filter) discoverProxyIP(p *proxy, c *model.Connection) string] *)
Definition discoverProxyIP (p : proxy.t) (c : model.Connection) : string :=
  if String.eqb (model.Ip (model.Laddr c)) (target.ip (proxy.target p)) &&
     (model.Port (model.Laddr c) =? target.port (proxy.target p)) then
    model.Ip (model.Raddr c)
  else if String.eqb (model.Ip (model.Raddr c)) (target.ip (proxy.target p)) &&
          (model.Port (model.Raddr c) =? target.port (proxy.target p)) then
    model.Ip (model.Laddr c)
  else "".

(** [func (f *Filter) isProxied(c *model.Connection) bool].  A location held
    by a map always holds a proxy; the branch for one that does not is never
    taken. *)
Definition isProxied (f : Filter) (c : model.Connection) : bool :=
  match proxyByTarget f !!
          {| target.ip := model.Ip (model.Laddr c); target.port := model.Port (model.Laddr c);
             target.proto := model.Type_ c |} with
  | Some l =>
      match proxies f !! l with
      | Some p => String.eqb (proxy.ip p) (model.Ip (model.Raddr c))
      | None => false
      end
  | None =>
      match proxyByTarget f !!
              {| target.ip := model.Ip (model.Raddr c);
                 target.port := model.Port (model.Raddr c);
                 target.proto := model.Type_ c |} with
      | Some l =>
          match proxies f !! l with
          | Some p => String.eqb (proxy.ip p) (model.Ip (model.Laddr c))
          | None => false
          end
      | None => false
      end
  end.

(** The first loop of [Filter]: the discovery of the proxy addresses.  The
    assignment [proxy.ip = proxyIP] writes the object both maps point to. *)
Fixpoint discover (conns : list model.Connection) (f : Filter) : Filter :=
  match conns with
  | [] => f
  | c :: rest =>
      if (base.size (proxyByPID f) =? 0)%nat then f
      else
        match proxyByPID f !! model.Pid c with
        | Some l =>
            match proxies f !! l with
            | Some p =>
                let proxyIP := discoverProxyIP p c in
                if String.eqb proxyIP "" then discover rest f
                else
                  discover rest
                    {| proxies :=
                         <[l := {| proxy.pid := proxy.pid p; proxy.ip := proxyIP;
                                   proxy.target := proxy.target p |}]> (proxies f);
                       proxyByTarget := proxyByTarget f;
                       proxyByPID := delete (model.Pid c) (proxyByPID f) |}
            | None => discover rest f
            end
        | None => discover rest f
        end
  end.

(** [func (f *Filter) Filter(payload *model.Connections)]: the filter and the
    connections of the payload afterwards. *)
Definition Filter_Filter (f : Filter) (conns : list model.Connection)
    : Filter * list model.Connection :=
  if (base.size (proxyByPID f) =? 0)%nat then (f, conns)
  else
    let f' := discover conns f in
    (f', filter (λ c, isProxied f' c = false) conns).

End dockerproxy.

(** ** Well-formed caches *)

(** The name list of an entry is sorted without repetition. *)
Definition names_ok (l : list string) : Prop := StronglySorted sort.string_lt l.

Definition cache_ok (d : gmap Address dnsCacheVal) : Prop :=
  ∀ a v, d !! a = Some v → names_ok (names v).

(** ** Vocabulary of the statements *)

(** The range of an [int64] field. *)
Definition is_int64 (z : Z) : Prop := - 2 ^ 63 ≤ z < 2 ^ 63.

(** An entry with its expiration reset, the names untouched. *)
Definition touch (exp : Z) (v : dnsCacheVal) : dnsCacheVal :=
  {| names := names v; expiration := exp |}.

(** The entry [Add] leaves at an address of the translation, from what the
    map held there. *)
Definition Add_entry (name : string) (exp : Z) (o : option dnsCacheVal) : dnsCacheVal :=
  match o with
  | Some val => merge (touch exp val) name
  | None => {| names := [name]; expiration := exp |}
  end.

(** The addresses a list of connections looks up. *)
Definition conn_addrs (conns : list ConnectionStats.t) : list Address :=
  conns ≫= λ conn, [ConnectionStats.Source conn; ConnectionStats.Dest conn].

(** The names a map holds for the two ends of a connection. *)
Definition names_of (d : gmap Address dnsCacheVal) (conn : ConnectionStats.t) : NamePair.t :=
  NamePair.mk (names <$> d !! ConnectionStats.Source conn)
              (names <$> d !! ConnectionStats.Dest conn).

(** The connections whose destination address is in the map. *)
Definition dest_known (d : gmap Address dnsCacheVal) (conn : ConnectionStats.t) : bool :=
  bool_decide (is_Some (d !! ConnectionStats.Dest conn)).

Definition dest_hits (d : gmap Address dnsCacheVal) (conns : list ConnectionStats.t) : Z :=
  Z.of_nat (length (filter (λ conn, dest_known d conn = true) conns)).

(** The states a cache goes through: a fresh cache, then any sequence of
    calls of its operations and of runs of the sweep. *)
Inductive reachable : reverseDNSCache → Prop :=
  | reachable_new size ttl : reachable (newReverseDNSCache size ttl)
  | reachable_Add c tr now : reachable c → reachable (Add c tr now).2
  | reachable_Get c conns now : reachable c → reachable (Get c conns now).2
  | reachable_Stats c : reachable c → reachable (Stats c).2
  | reachable_expire c start : reachable c → reachable (expire c start).

(** Two maps that hold the same names at every address. *)
Definition same_names (d1 d2 : gmap Address dnsCacheVal) : Prop :=
  ∀ a, names <$> d1 !! a = names <$> d2 !! a.

(** An entry of the cache at [a] whose last touch was at instant [t0]. *)
Definition touched_at (c : reverseDNSCache) (a : Address) (t0 : time.Time) : Prop :=
  ∃ v, data c !! a = Some v ∧ expiration v = time.Unix (time.Add t0 (ttl c)).

(** An instant or duration that is a whole number of seconds. *)
Definition whole_seconds (t : Z) : Prop := t mod time.Second = 0.

(** The turns of the packet loop that are gone through: those before the
    first one that finds the exit channel closed. *)
Fixpoint turns_run (turns : list pollPackets_turn) : list pollPackets_turn :=
  match turns with
  | [] => []
  | turn :: rest => if turn_exit turn then [] else turn :: turns_run rest
  end.

(** The translations decoded in a run of turns, each with the clock of its
    turn, and the number of packets that could not be decoded. *)
Definition decoded (turns : list pollPackets_turn) : list (translation * time.Time) :=
  omap (λ turn, match turn_read turn with
                | read_packet (Some tr) => Some (tr, turn_now turn)
                | _ => None
                end) turns.

Definition undecodable (turn : pollPackets_turn) : bool :=
  match turn_read turn with
  | read_packet None => true
  | _ => false
  end.

Definition Add_all (c : reverseDNSCache) (trs : list (translation * time.Time))
    : reverseDNSCache :=
  foldl (λ c p, (Add c (Some p.1) p.2).2) c trs.

(** The statistics a tick reports lie in the range of [int64]. *)
Definition event_int64 (e : pollStats_event) : Prop :=
  match e with
  | ticker_C sourceStats _ =>
      is_int64 (afpacket.Polls sourceStats) ∧ is_int64 (afpacket.Packets sourceStats)
  | exit => True
  end.

(** No entry of the map has an empty name list. *)
Definition nonempty_names (d : gmap Address dnsCacheVal) : Prop :=
  ∀ a v, d !! a = Some v → names v ≠ [].

(** The number of addresses of a translation. *)
Definition set_len (s : gset Address) : Z := Z.of_nat (base.size s).

(** The filter is well formed: every location in the map by PID holds a
    proxy of that PID whose address is still to be discovered, and every
    location in the map by target holds a proxy of that target. *)
Definition Filter_ok (f : dockerproxy.Filter) : Prop :=
  (∀ k l, dockerproxy.proxyByPID f !! k = Some l →
     ∃ p, dockerproxy.proxies f !! l = Some p ∧
          dockerproxy.proxy.pid p = k ∧ dockerproxy.proxy.ip p = "") ∧
  (∀ tg l, dockerproxy.proxyByTarget f !! tg = Some l →
     ∃ p, dockerproxy.proxies f !! l = Some p ∧ dockerproxy.proxy.target p = tg).

(** The target made of one end of a connection. *)
Definition end_target (a : dockerproxy.model.Addr) (c : dockerproxy.model.Connection)
    : dockerproxy.target.t :=
  {| dockerproxy.target.ip := dockerproxy.model.Ip a;
     dockerproxy.target.port := dockerproxy.model.Port a;
     dockerproxy.target.proto := dockerproxy.model.Type_ c |}.

(** The range of an [int32] field. *)
Definition is_int32 (z : Z) : Prop := - 2 ^ 31 ≤ z < 2 ^ 31.

(** ** Concrete caches and translations *)

Definition addr_1_2_3_4 : Address := v4Address 16909060.
Definition addr_9_9_9_9 : Address := v4Address 151587081.

(** A cache of capacity one that holds one entry. *)
Definition full_cache : reverseDNSCache :=
  {| data := {[ addr_1_2_3_4 := {| names := ["a.com"]; expiration := 10 |} ]};
     ttl := 60 * time.Second; size := 1; len := 1; lookups := 0; resolved := 0 |}.

Definition tr_b : translation := {| name := "b.com"; ips := {[ addr_1_2_3_4 ]} |}.
Definition tr_a : translation := {| name := "a.com"; ips := {[ addr_1_2_3_4 ]} |}.
Definition tr_example : translation := {| name := "example.com"; ips := {[ addr_1_2_3_4 ]} |}.
Definition tr_no_address : translation := {| name := "example.com"; ips := ∅ |}.

(** A fresh cache with the ttl of the source system (three minutes) and room
    for two entries. *)
Definition small_cache : reverseDNSCache := newReverseDNSCache 2 (3 * time.Minute).

Definition conn_example : ConnectionStats.t := ConnectionStats.mk addr_1_2_3_4 addr_9_9_9_9.

Definition addr_1_2_3_5 : Address := v4Address 16909061.
Definition addr_1_2_3_6 : Address := v4Address 16909062.

(** A translation with three addresses, and one with a second name for the
    first address. *)
Definition tr_three : translation :=
  {| name := "example.com"; ips := {[ addr_1_2_3_4; addr_1_2_3_5; addr_1_2_3_6 ]} |}.
Definition tr_later : translation := {| name := "www.example.com"; ips := {[ addr_1_2_3_4 ]} |}.

(** The cache after the first translation was added at the epoch. *)
Definition cache_one : reverseDNSCache := (Add small_cache (Some tr_example) 0).2.

(** A table of connection types and a reading of decimal numerals, to run
    [extractProxyTarget] on a command line. *)
Definition ConnectionType_value_example : gmap string Z := {[ "tcp" := 0; "udp" := 1 ]}.

Fixpoint decimal (s : string) (acc : Z) : option Z :=
  match s with
  | EmptyString => Some acc
  | String ch rest =>
      let n := Z.of_N (N_of_ascii ch) in
      if (48 <=? n) && (n <=? 57) then decimal rest (10 * acc + (n - 48)) else None
  end.

Definition Atoi_example (s : string) : option Z :=
  match s with
  | EmptyString => None
  | _ => decimal s 0
  end.

Definition docker_proxy_process : dockerproxy.process.FilledProcess :=
  dockerproxy.process.mkProcess 4242
    ["/usr/bin/docker-proxy"; "-proto"; "tcp"; "-host-ip"; "0.0.0.0"; "-host-port"; "32769";
     "-container-ip"; "172.17.0.2"; "-container-port"; "6379"].

Definition other_process : dockerproxy.process.FilledProcess :=
  dockerproxy.process.mkProcess 77 ["/usr/bin/redis-server"; "-container-port"; "6379"].

(** The filter loaded from these two processes. *)
Definition filter_example : dockerproxy.Filter :=
  dockerproxy.LoadProxies Atoi_example ConnectionType_value_example
    [other_process; docker_proxy_process].

(** A connection of the proxy process to its container, a connection that
    goes through the proxy, and one that has nothing to do with it. *)
Definition conn_of_proxy : dockerproxy.model.Connection :=
  dockerproxy.model.mkConnection 4242
    (dockerproxy.model.mkAddr "172.17.0.1" 40000) (dockerproxy.model.mkAddr "172.17.0.2" 6379) 0.
Definition conn_proxied : dockerproxy.model.Connection :=
  dockerproxy.model.mkConnection 900
    (dockerproxy.model.mkAddr "172.17.0.2" 6379) (dockerproxy.model.mkAddr "172.17.0.1" 40000) 0.
Definition conn_plain : dockerproxy.model.Connection :=
  dockerproxy.model.mkConnection 901
    (dockerproxy.model.mkAddr "10.0.0.5" 51000) (dockerproxy.model.mkAddr "10.0.0.9" 443) 0.

(** * Properties *)

(** ** The order on strings *)

Section string_order.

Lemma ascii_compare_refl a : Ascii.compare a a = Eq.
Proof. unfold Ascii.compare. apply N.compare_refl. Qed.

Lemma ascii_compare_lt_trans a b c :
  Ascii.compare a b = Lt → Ascii.compare b c = Lt → Ascii.compare a c = Lt.
Proof.
  unfold Ascii.compare. rewrite !N.compare_lt_iff. apply N.lt_trans.
Qed.

Lemma string_compare_refl s : String.compare s s = Eq.
Proof. induction s as [|a s IH]; simpl; [done|]. by rewrite ascii_compare_refl. Qed.

Lemma string_compare_lt_trans s1 s2 s3 :
  String.compare s1 s2 = Lt → String.compare s2 s3 = Lt → String.compare s1 s3 = Lt.
Proof.
  revert s2 s3. induction s1 as [|a s1 IH]; intros [|b s2] [|c s3]; simpl; try done.
  destruct (Ascii.compare a b) eqn:Hab; try done;
    destruct (Ascii.compare b c) eqn:Hbc; try done; intros H12 H23.
  - apply Ascii.compare_eq_iff in Hab, Hbc. subst.
    rewrite ascii_compare_refl. eauto.
  - apply Ascii.compare_eq_iff in Hab. subst. by rewrite Hbc.
  - apply Ascii.compare_eq_iff in Hbc. subst. by rewrite Hab.
  - by rewrite (ascii_compare_lt_trans a b c).
Qed.

Lemma string_lt_compare s1 s2 : sort.string_lt s1 s2 ↔ String.compare s1 s2 = Lt.
Proof.
  unfold sort.string_lt, String.ltb. destruct (String.compare s1 s2); naive_solver.
Qed.

Lemma string_le_compare s1 s2 : sort.string_le s1 s2 ↔ String.compare s1 s2 ≠ Gt.
Proof.
  unfold sort.string_le, String.leb. destruct (String.compare s1 s2); naive_solver.
Qed.

Lemma string_le_lt_eq s1 s2 : sort.string_le s1 s2 ↔ sort.string_lt s1 s2 ∨ s1 = s2.
Proof.
  rewrite string_le_compare, string_lt_compare. split.
  - destruct (String.compare s1 s2) eqn:E; try naive_solver.
    apply String.compare_eq_iff in E. auto.
  - intros [->| ->]; [done|]. by rewrite string_compare_refl.
Qed.

Lemma string_lt_irrefl s : ¬ sort.string_lt s s.
Proof. rewrite string_lt_compare, string_compare_refl. done. Qed.

#[export] Instance string_lt_trans : Transitive sort.string_lt.
Proof.
  intros s1 s2 s3. rewrite !string_lt_compare. apply string_compare_lt_trans.
Qed.

#[export] Instance string_le_trans : Transitive sort.string_le.
Proof.
  intros s1 s2 s3. rewrite !string_le_lt_eq.
  intros [H12| ->] [H23| ->]; auto. left. by etrans.
Qed.

#[export] Instance string_le_total : Total sort.string_le.
Proof. intros s1 s2. apply String.leb_total. Qed.

#[export] Instance string_le_antisym : AntiSymm (=) sort.string_le.
Proof. intros s1 s2. apply String.leb_antisym. Qed.

Lemma string_lt_le s1 s2 : sort.string_lt s1 s2 → sort.string_le s1 s2.
Proof. rewrite string_le_lt_eq. auto. Qed.

(** [!(a >= x)] is [a < x]. *)
Lemma string_not_le_lt s1 s2 : String.leb s1 s2 = false ↔ sort.string_lt s2 s1.
Proof.
  rewrite string_lt_compare. unfold String.leb.
  rewrite (String.compare_antisym s2 s1).
  destruct (String.compare s1 s2); naive_solver.
Qed.

Lemma string_lt_le_trans s1 s2 s3 :
  sort.string_lt s1 s2 → sort.string_le s2 s3 → sort.string_lt s1 s3.
Proof. rewrite string_le_lt_eq. intros H12 [H23| <-]; [by etrans|done]. Qed.

End string_order.

(** ** Binary search *)

Section search.

Lemma Search_loop_S fuel f i j :
  sort.Search_loop (S fuel) f i j =
  if (i <? j)%nat then
    if negb (f ((i + j) / 2)%nat)
    then sort.Search_loop fuel f ((i + j) / 2 + 1)%nat j
    else sort.Search_loop fuel f i ((i + j) / 2)%nat
  else i.
Proof. reflexivity. Qed.

(** What the loop of [sort.Search] establishes for any predicate, given
    enough turns: the result lies in the interval, the predicate holds at
    it unless it is the upper end, and fails just below it unless it is
    the lower end. *)
Lemma Search_loop_spec fuel f i j :
  (i ≤ j)%nat → (j - i ≤ fuel)%nat →
  let r := sort.Search_loop fuel f i j in
  (i ≤ r ≤ j)%nat ∧
  ((r < j)%nat → f r = true) ∧
  ((i < r)%nat → f (r - 1)%nat = false).
Proof.
  revert i j. induction fuel as [|fuel IH]; intros i j Hij Hfuel; cbv zeta.
  { simpl. repeat split; lia. }
  rewrite Search_loop_S.
  destruct (Nat.ltb_spec i j) as [Hlt|Hge]; [|repeat split; lia].
  pose proof (Nat.div_mod_eq (i + j) 2) as Hdiv.
  pose proof (Nat.mod_upper_bound (i + j) 2) as Hmod.
  set (h := ((i + j) / 2)%nat) in *.
  assert (i ≤ h < j)%nat as Hh by lia.
  destruct (f h) eqn:Hfh; simpl negb; cbv iota.
  - destruct (IH i h) as (Hr & Hlo & Hhi); [lia..|].
    split; [lia|]. split; [|done].
    intros Hrj. destruct (decide (sort.Search_loop fuel f i h = h)) as [->|Hne]; [done|].
    apply Hlo. lia.
  - destruct (IH (h + 1)%nat j) as (Hr & Hlo & Hhi); [lia..|].
    split; [lia|]. split; [done|].
    intros Hir.
    destruct (decide (sort.Search_loop fuel f (h + 1) j = h + 1)%nat) as [->|Hne].
    + by replace (h + 1 - 1)%nat with h by lia.
    + apply Hhi. lia.
Qed.

(** More turns than the width of the interval change nothing: the loop has
    ended by then. *)
Lemma Search_loop_fuel fuel1 fuel2 f i j :
  (j - i ≤ fuel1)%nat → (j - i ≤ fuel2)%nat →
  sort.Search_loop fuel1 f i j = sort.Search_loop fuel2 f i j.
Proof.
  revert fuel2 i j. induction fuel1 as [|fuel1 IH]; intros [|fuel2] i j H1 H2;
    rewrite ?Search_loop_S; cbn [sort.Search_loop]; try done.
  - destruct (Nat.ltb_spec i j); [lia|done].
  - destruct (Nat.ltb_spec i j); [lia|done].
  - destruct (Nat.ltb_spec i j) as [Hlt|Hge]; [|done].
    pose proof (Nat.div_mod_eq (i + j) 2) as Hdiv.
    pose proof (Nat.mod_upper_bound (i + j) 2) as Hmod.
    destruct (negb (f ((i + j) / 2)%nat)); apply IH; lia.
Qed.

Lemma Search_spec n f :
  let r := sort.Search n f in
  (r ≤ n)%nat ∧ ((r < n)%nat → f r = true) ∧ ((0 < r)%nat → f (r - 1)%nat = false).
Proof.
  unfold sort.Search.
  destruct (Search_loop_spec n f 0 n) as (Hr & Hlo & Hhi); [lia..|].
  repeat split; [lia|done|done].
Qed.

Lemma ge_at_true a x i :
  sort.ge_at a x i = true ↔ ∃ y, a !! i = Some y ∧ sort.string_le x y.
Proof.
  unfold sort.ge_at, sort.string_le. destruct (a !! i) as [y|].
  - split; [by exists y|]. by intros (y' & [= <-] & Hle).
  - split; [discriminate|]. by intros (y & Hy & _).
Qed.

Lemma ge_at_false a x i y :
  a !! i = Some y → sort.ge_at a x i = false → sort.string_lt y x.
Proof.
  unfold sort.ge_at. intros ->. apply string_not_le_lt.
Qed.

(** A hit of [SearchStrings] is the index of an element that is at least
    the name searched for. *)
Lemma SearchStrings_lt a x :
  (sort.SearchStrings a x < length a)%nat →
  ∃ y, a !! sort.SearchStrings a x = Some y ∧ sort.string_le x y.
Proof.
  intros Hlt. destruct (Search_spec (length a) (sort.ge_at a x)) as (_ & Hlo & _).
  apply ge_at_true. by apply Hlo.
Qed.

(** When [SearchStrings] returns the length, the last element is below the
    name. *)
Lemma SearchStrings_ge_last a z x :
  (length (a ++ [z]) ≤ sort.SearchStrings (a ++ [z]) x)%nat → sort.string_lt z x.
Proof.
  intros Hge.
  destruct (Search_spec (length (a ++ [z])) (sort.ge_at (a ++ [z]) x)) as (Hr & _ & Hhi).
  fold (sort.SearchStrings (a ++ [z]) x) in Hr, Hhi.
  assert (sort.SearchStrings (a ++ [z]) x = length (a ++ [z])) as Heq by lia.
  rewrite Heq in Hhi. rewrite length_app in Hhi. simpl in Hhi.
  apply (ge_at_false (a ++ [z]) x (length a + 1 - 1)%nat); [|apply Hhi; lia].
  replace (length a + 1 - 1)%nat with (length a + 0)%nat by lia.
  by rewrite lookup_app_r, Nat.add_0_r, Nat.sub_diag by lia.
Qed.

(** On a sorted list that holds an element at or above the name, the
    search returns an index of the list. *)
Lemma SearchStrings_sorted_lt a x y :
  Sorted sort.string_le a → y ∈ a → sort.string_le x y →
  (sort.SearchStrings a x < length a)%nat.
Proof.
  intros Hs Hy Hxy.
  destruct (Nat.lt_ge_cases (sort.SearchStrings a x) (length a)) as [|Hge]; [done|].
  exfalso.
  destruct a as [|a0 a'] using rev_ind; [by apply elem_of_nil in Hy|]. clear IHa'.
  apply SearchStrings_ge_last in Hge.
  apply Sorted_StronglySorted in Hs; [|apply _].
  apply elem_of_app in Hy as [Hy|Hy%list_elem_of_singleton].
  - apply StronglySorted_app in Hs as (Hall & _ & _).
    assert (sort.string_le y a0) as Hya by (apply Hall; set_solver).
    apply (string_lt_irrefl a0). eapply string_lt_le_trans; [done|]. by etrans.
  - subst y. apply (string_lt_irrefl a0). by eapply string_lt_le_trans.
Qed.

End search.

(** ** Merging a name into an entry *)

Section merge_facts.

Lemma names_ok_le l : names_ok l → StronglySorted sort.string_le l.
Proof.
  induction 1 as [|x l Hl IH Hx]; constructor; [done|].
  eapply Forall_impl; [done|]. intros y. apply string_lt_le.
Qed.

Lemma names_ok_NoDup l : names_ok l → NoDup l.
Proof.
  induction 1 as [|x l Hl IH Hx]; constructor; [|done].
  intros Hin. rewrite Forall_forall in Hx.
  by apply (string_lt_irrefl x), Hx.
Qed.

Lemma names_ok_singleton x : names_ok [x].
Proof. repeat constructor. Qed.

Lemma names_ok_snoc l x :
  names_ok l → (∀ y, y ∈ l → sort.string_lt y x) → names_ok (l ++ [x]).
Proof.
  intros Hl Hx. apply StronglySorted_app. split_and!.
  - intros y z Hy ->%list_elem_of_singleton. by apply Hx.
  - done.
  - apply names_ok_singleton.
Qed.

(** The two branches of [merge]. *)
Lemma merge_found v x :
  (sort.SearchStrings (names v) x < length (names v))%nat → merge v x = v.
Proof. intros H. unfold merge. by rewrite (proj2 (Nat.ltb_lt _ _) H). Qed.

Lemma merge_not_found v x :
  (length (names v) ≤ sort.SearchStrings (names v) x)%nat →
  merge v x = {| names := sort.Strings (names v ++ [x]); expiration := expiration v |}.
Proof. intros H. unfold merge. by rewrite (proj2 (Nat.ltb_ge _ _) H). Qed.

Lemma merge_expiration v x : expiration (merge v x) = expiration v.
Proof. unfold merge. by destruct (_ <? _)%nat. Qed.

(** The names after a merge depend on the names before it only. *)
Lemma merge_names_ext v w x :
  names v = names w → names (merge v x) = names (merge w x).
Proof.
  unfold merge. intros Hvw. rewrite Hvw.
  by destruct (_ <? _)%nat.
Qed.

(** In a sorted list, the search misses only when every element is below
    the name. *)
Lemma SearchStrings_miss_all_lt l x y :
  names_ok l → (length l ≤ sort.SearchStrings l x)%nat → y ∈ l → sort.string_lt y x.
Proof.
  intros Hl Hge Hy.
  destruct l as [|z l'] using rev_ind; [by apply elem_of_nil in Hy|]. clear IHl'.
  apply SearchStrings_ge_last in Hge.
  apply elem_of_app in Hy as [Hy| ->%list_elem_of_singleton]; [|done].
  apply StronglySorted_app in Hl as (Hall & _ & _).
  etrans; [|done]. apply Hall; [done|]. by apply list_elem_of_singleton.
Qed.

(** Sorting a name list that is already in order changes nothing. *)
Lemma Strings_sorted l : names_ok l → sort.Strings l = l.
Proof.
  intros Hl. apply (StronglySorted_unique sort.string_le).
  - apply StronglySorted_merge_sort; apply _.
  - by apply names_ok_le.
  - apply merge_sort_Permutation.
Qed.

(** Any sorted arrangement of a list is the one [sort.Strings] returns. *)
Lemma Strings_unique l l' :
  Sorted sort.string_le l' → l' ≡ₚ l → sort.Strings l = l'.
Proof.
  intros Hs Hp. apply (Sorted_unique sort.string_le).
  - apply Sorted_merge_sort. apply _.
  - done.
  - unfold sort.Strings. by rewrite merge_sort_Permutation.
Qed.

(** What [merge] does to a sorted, duplicate-free name list: it appends
    the name when every element is below it, and changes nothing when some
    element is at or above it. *)
Lemma merge_cases v x :
  names_ok (names v) →
  (merge v x = v ∧ ∃ y, y ∈ names v ∧ sort.string_le x y) ∨
  (names (merge v x) = names v ++ [x] ∧ ∀ y, y ∈ names v → sort.string_lt y x).
Proof.
  intros Hv.
  destruct (Nat.lt_ge_cases (sort.SearchStrings (names v) x) (length (names v)))
    as [Hlt|Hge].
  - left. split; [by apply merge_found|].
    destruct (SearchStrings_lt _ _ Hlt) as (y & Hy & Hle).
    exists y. split; [|done]. by eapply list_elem_of_lookup_2.
  - right. rewrite merge_not_found by done. simpl.
    assert (∀ y, y ∈ names v → sort.string_lt y x) as Hall
      by (intros y; by apply SearchStrings_miss_all_lt).
    split; [|done]. apply Strings_sorted. by apply names_ok_snoc.
Qed.

Lemma merge_names_ok v x : names_ok (names v) → names_ok (names (merge v x)).
Proof.
  intros Hv. destruct (merge_cases v x Hv) as [[-> _]|[-> Hall]]; [done|].
  by apply names_ok_snoc.
Qed.

(** A name that is in the sorted list is found. *)
Lemma merge_present v x : names_ok (names v) → x ∈ names v → merge v x = v.
Proof.
  intros Hv Hx. apply merge_found.
  apply (SearchStrings_sorted_lt _ _ x); [|done|].
  - apply StronglySorted_Sorted. by apply names_ok_le.
  - apply string_le_lt_eq. by right.
Qed.

(** Merging the same name again changes nothing, whatever the list. *)
Lemma merge_idemp v x : merge (merge v x) x = merge v x.
Proof.
  destruct (Nat.lt_ge_cases (sort.SearchStrings (names v) x) (length (names v)))
    as [Hlt|Hge].
  - rewrite (merge_found v x Hlt). by apply merge_found.
  - rewrite (merge_not_found v) by done. apply merge_found. simpl.
    apply (SearchStrings_sorted_lt _ _ x).
    + apply Sorted_merge_sort. apply _.
    + unfold sort.Strings. rewrite merge_sort_Permutation. set_solver.
    + apply string_le_lt_eq. by right.
Qed.

End merge_facts.

(** ** The loop of [Add] *)

Section add_facts.

Implicit Types (d : gmap Address dnsCacheVal) (a x : Address).

Lemma Add_step_lookup name exp d x a :
  Add_step name exp d x !! a =
  if decide (a = x) then Some (Add_entry name exp (d !! x)) else d !! a.
Proof.
  unfold Add_step, Add_entry, touch.
  destruct (d !! x) as [val|] eqn:Hx; rewrite lookup_insert;
    repeat case_decide; congruence.
Qed.

(** Every address visited ends with the entry [Add_entry] describes, the
    others keep theirs. *)
Lemma Add_loop_lookup name exp addrs d a :
  NoDup addrs →
  Add_loop name exp addrs d !! a =
  if decide (a ∈ addrs) then Some (Add_entry name exp (d !! a)) else d !! a.
Proof.
  unfold Add_loop. revert d.
  induction addrs as [|x addrs IH]; intros d Hnd; cbn [foldl].
  { destruct (decide (a ∈ [])) as [Hin|_]; [by apply elem_of_nil in Hin|done]. }
  apply NoDup_cons in Hnd as [Hx Hnd]. rewrite IH by done.
  rewrite Add_step_lookup.
  destruct (decide (a = x)) as [->|Hne].
  - rewrite (decide_False (P := x ∈ addrs)) by done.
    by rewrite (decide_True (P := x ∈ x :: addrs)) by (by left).
  - destruct (decide (a ∈ addrs)) as [Hin|Hnin].
    + by rewrite (decide_True (P := a ∈ x :: addrs)) by (by right).
    + rewrite (decide_False (P := a ∈ x :: addrs)); [done|].
      by intros [?|?]%elem_of_cons.
Qed.

(** The order in which the addresses of the translation are visited does
    not matter. *)
Lemma Add_loop_order name exp addrs1 addrs2 d :
  NoDup addrs1 → addrs1 ≡ₚ addrs2 →
  Add_loop name exp addrs1 d = Add_loop name exp addrs2 d.
Proof.
  intros Hnd Hp. apply map_eq. intros a.
  rewrite !Add_loop_lookup by (done || by rewrite <- Hp).
  destruct (decide (a ∈ addrs1)) as [Hin|Hnin].
  - rewrite decide_True; [done|]. by rewrite <- Hp.
  - rewrite decide_False; [done|]. by rewrite <- Hp.
Qed.

Lemma Add_translation_lookup name exp (s : gset Address) d a :
  Add_loop name exp (elements s) d !! a =
  if decide (a ∈ s) then Some (Add_entry name exp (d !! a)) else d !! a.
Proof.
  rewrite Add_loop_lookup by apply NoDup_elements.
  destruct (decide (a ∈ s)) as [Hin|Hnin].
  - rewrite decide_True; [done|]. by apply elem_of_elements.
  - rewrite decide_False; [done|]. by rewrite elem_of_elements.
Qed.

Lemma Add_entry_names_ok name exp o :
  (∀ v, o = Some v → names_ok (names v)) → names_ok (names (Add_entry name exp o)).
Proof.
  intros Ho. destruct o as [v|]; simpl.
  - apply merge_names_ok. simpl. by apply Ho.
  - apply names_ok_singleton.
Qed.

Lemma Add_entry_expiration name exp o : expiration (Add_entry name exp o) = exp.
Proof. destruct o; simpl; [|done]. by rewrite merge_expiration. Qed.

(** Adding a name a second time leaves the names of the entry as they are. *)
Lemma Add_entry_idemp name exp1 exp2 o :
  names (Add_entry name exp2 (Some (Add_entry name exp1 o))) =
  names (Add_entry name exp1 o).
Proof.
  destruct o as [v|]; cbn [Add_entry].
  - rewrite <- (merge_idemp (touch exp1 v) name) at 2.
    by apply merge_names_ext.
  - rewrite merge_present; [done|apply names_ok_singleton|].
    by apply list_elem_of_singleton.
Qed.

Lemma Add_loop_ok name exp (s : gset Address) d :
  cache_ok d → cache_ok (Add_loop name exp (elements s) d).
Proof.
  intros Hd a v. rewrite Add_translation_lookup.
  case_decide; [|by apply Hd]. intros [= <-].
  apply Add_entry_names_ok. intros w Hw. by eapply Hd.
Qed.

(** The shape of the result of [Add]. *)
Lemma Add_rejected c tr now :
  size c ≤ map_len (data c) → Add c tr now = (false, c).
Proof.
  intros Hfull. unfold Add. destruct tr as [tr|]; [|done].
  by rewrite (proj2 (Z.geb_le _ _) Hfull).
Qed.

Lemma Add_accepted c tr now :
  map_len (data c) < size c →
  Add c (Some tr) now =
  (true,
   let d := Add_loop (name tr) (time.Unix (time.Add now (ttl c)))
              (elements (ips tr)) (data c) in
   with_len (with_data c d) (int64 (map_len d))).
Proof.
  intros Hroom. unfold Add.
  destruct (Z.geb_spec (map_len (data c)) (size c)) as [Hge|_]; [lia|done].
Qed.

Lemma Add_preserves_ok c tr now :
  cache_ok (data c) → cache_ok (data (Add c tr now).2).
Proof.
  intros Hc. destruct (Z.le_gt_cases (size c) (map_len (data c))) as [Hfull|Hroom].
  - by rewrite Add_rejected.
  - destruct tr as [tr|]; [|done]. rewrite Add_accepted by lia. simpl.
    by apply Add_loop_ok.
Qed.

End add_facts.

(** ** Lookups *)

Section get_facts.

Implicit Types (d : gmap Address dnsCacheVal) (a ip : Address).

Lemma copy_names v : copy v = names v.
Proof. unfold copy. by apply take_ge. Qed.

Lemma getNamesForIP_result d ip exp :
  (getNamesForIP d ip exp).1 = names <$> d !! ip.
Proof.
  unfold getNamesForIP. destruct (d !! ip) as [val|]; simpl; [|done].
  by rewrite copy_names.
Qed.

Lemma getNamesForIP_lookup d ip exp a :
  (getNamesForIP d ip exp).2 !! a =
  if decide (a = ip) then touch exp <$> d !! a else d !! a.
Proof.
  unfold getNamesForIP. destruct (d !! ip) as [val|] eqn:Hip; simpl.
  - rewrite lookup_insert. repeat case_decide; subst; try congruence.
    by rewrite Hip.
  - case_decide; subst; [by rewrite Hip|done].
Qed.

(** A touch keeps the names, so the names found and the set of known
    addresses are those of the map the loop started from. *)
Lemma getNamesForIP_same_names d ip exp :
  same_names (getNamesForIP d ip exp).2 d.
Proof.
  intros a. rewrite getNamesForIP_lookup. case_decide; [|done].
  by destruct (d !! a).
Qed.

Lemma same_names_trans d1 d2 d3 :
  same_names d1 d2 → same_names d2 d3 → same_names d1 d3.
Proof. intros H12 H23 a. by rewrite H12. Qed.

Lemma names_of_ext d1 d2 conn : same_names d1 d2 → names_of d1 conn = names_of d2 conn.
Proof. intros H. unfold names_of. by rewrite !H. Qed.

Lemma dest_known_ext d1 d2 conn :
  same_names d1 d2 → dest_known d1 conn = dest_known d2 conn.
Proof.
  intros H. unfold dest_known. apply bool_decide_ext.
  rewrite <- !(fmap_is_Some names). by rewrite H.
Qed.

Lemma dest_hits_ext d1 d2 conns :
  same_names d1 d2 → dest_hits d1 conns = dest_hits d2 conns.
Proof.
  intros H. unfold dest_hits. f_equal. f_equal.
  apply list_filter_iff. intros conn. by rewrite (dest_known_ext d1 d2).
Qed.

Lemma dest_hits_cons d conn conns :
  dest_hits d (conn :: conns) =
  (if dest_known d conn then 1 else 0) + dest_hits d conns.
Proof.
  unfold dest_hits. rewrite filter_cons.
  destruct (decide (dest_known d conn = true)) as [Hk|Hk].
  - rewrite Hk. simpl length. lia.
  - apply not_true_is_false in Hk. rewrite Hk. lia.
Qed.

Lemma dest_hits_bounds d conns : 0 ≤ dest_hits d conns ≤ Z.of_nat (length conns).
Proof.
  unfold dest_hits. pose proof (length_filter (λ conn, dest_known d conn = true) conns).
  lia.
Qed.

Lemma conn_addrs_cons a conn conns :
  a ∈ conn_addrs (conn :: conns) ↔
  a = ConnectionStats.Source conn ∨ a = ConnectionStats.Dest conn ∨ a ∈ conn_addrs conns.
Proof.
  unfold conn_addrs. rewrite bind_cons. fold (conn_addrs conns).
  rewrite elem_of_app, !elem_of_cons, elem_of_nil. tauto.
Qed.

(** The three results of the loop of [Get]. *)
Lemma Get_loop_spec conns exp d r :
  let '(pairs, r', d') := Get_loop conns exp d r in
  pairs = names_of d <$> conns ∧
  r' = r + dest_hits d conns ∧
  ∀ a, d' !! a = if decide (a ∈ conn_addrs conns) then touch exp <$> d !! a else d !! a.
Proof.
  revert d r. induction conns as [|conn conns IH]; intros d r.
  { simpl. split_and!; [done|unfold dest_hits; simpl; lia|].
    intros a. unfold conn_addrs. simpl.
    destruct (decide (a ∈ [])) as [Hin|_]; [by apply elem_of_nil in Hin|done]. }
  cbn [Get_loop].
  pose proof (getNamesForIP_result d (ConnectionStats.Source conn) exp) as Hsrc.
  pose proof (getNamesForIP_lookup d (ConnectionStats.Source conn) exp) as Hd1.
  pose proof (getNamesForIP_same_names d (ConnectionStats.Source conn) exp) as Hs1.
  destruct (getNamesForIP d (ConnectionStats.Source conn) exp) as [src d1].
  simpl in Hsrc, Hd1, Hs1.
  pose proof (getNamesForIP_result d1 (ConnectionStats.Dest conn) exp) as Hdst.
  pose proof (getNamesForIP_lookup d1 (ConnectionStats.Dest conn) exp) as Hd2.
  pose proof (getNamesForIP_same_names d1 (ConnectionStats.Dest conn) exp) as Hs2.
  destruct (getNamesForIP d1 (ConnectionStats.Dest conn) exp) as [dst d2].
  simpl in Hdst, Hd2, Hs2.
  assert (same_names d2 d) as Hs by (by eapply same_names_trans).
  specialize (IH d2 (if dst is Some _ then r + 1 else r)).
  destruct (Get_loop conns exp d2 _) as [[pairs r'] d3].
  destruct IH as (-> & -> & Hd3). split_and!.
  - rewrite fmap_cons. f_equal.
    + unfold names_of. by rewrite Hsrc, Hdst, Hs1.
    + apply list_fmap_ext. intros _ c _. by apply names_of_ext.
  - rewrite dest_hits_cons, (dest_hits_ext d2 d) by done.
    unfold dest_known. rewrite Hdst, Hs1.
    destruct (d !! ConnectionStats.Dest conn) as [v|].
    + rewrite bool_decide_true by eauto. simpl. lia.
    + rewrite bool_decide_false by (by intros [? ?]). simpl. lia.
  - intros a. rewrite Hd3, Hd2, Hd1.
    destruct (decide (a ∈ conn_addrs (conn :: conns))) as [Hall|Hall];
      rewrite conn_addrs_cons in Hall;
      destruct (decide (a ∈ conn_addrs conns)) as [Hin|Hnin];
      destruct (decide (a = ConnectionStats.Dest conn)) as [Hdest|Hdest];
      destruct (decide (a = ConnectionStats.Source conn)) as [Hsource|Hsource];
      try tauto; by destruct (d !! a).
Qed.

(** [Get] as a whole. *)
Lemma Get_spec c conns now :
  let exp := time.Unix (time.Add now (ttl c)) in
  (Get c conns now).1 = names_of (data c) <$> conns ∧
  (∀ a, data (Get c conns now).2 !! a =
        if decide (a ∈ conn_addrs conns) then touch exp <$> data c !! a
        else data c !! a) ∧
  ttl (Get c conns now).2 = ttl c ∧
  size (Get c conns now).2 = size c ∧
  len (Get c conns now).2 = len c.
Proof.
  unfold Get. destruct conns as [|conn conns].
  { cbn [length Nat.eqb fst snd]. split; [done|]. split; [|done].
    intros a. destruct (decide (a ∈ conn_addrs [])) as [Hin|_]; [|done].
    by apply elem_of_nil in Hin. }
  cbn [length Nat.eqb].
  pose proof (Get_loop_spec (conn :: conns) (time.Unix (time.Add now (ttl c))) (data c) 0)
    as Hloop.
  destruct (Get_loop (conn :: conns) _ (data c) 0) as [[pairs r'] d'].
  destruct Hloop as (-> & -> & Hd'). by split_and!.
Qed.

Lemma Get_preserves_ok c conns now :
  cache_ok (data c) → cache_ok (data (Get c conns now).2).
Proof.
  intros Hc a v. destruct (Get_spec c conns now) as (_ & Hd & _). rewrite Hd.
  case_decide; [|by apply Hc].
  destruct (data c !! a) as [w|] eqn:Hw; [|done]. intros [= <-]. simpl.
  by eapply Hc.
Qed.

End get_facts.

(** ** The sweep *)

Section expire_facts.

Lemma expire_lookup c start a :
  data (expire c start) !! a =
  match data c !! a with
  | Some v =>
      if decide (time.Unix (time.Add start (- ttl c)) < expiration v) then Some v else None
  | None => None
  end.
Proof.
  unfold expire. cbn [data with_len with_data].
  destruct (data c !! a) as [v|] eqn:Hv.
  - case_decide as Hkeep.
    + by apply map_lookup_filter_Some.
    + apply map_lookup_filter_None. right. intros w Hw. simpl.
      rewrite Hv in Hw. by injection Hw as <-.
  - apply map_lookup_filter_None. by left.
Qed.

Lemma expire_preserves_ok c start :
  cache_ok (data c) → cache_ok (data (expire c start)).
Proof.
  intros Hc a v. rewrite expire_lookup.
  destruct (data c !! a) as [w|] eqn:Hw; [|done].
  case_decide; [|done]. intros [= <-]. by eapply Hc.
Qed.

Lemma newReverseDNSCache_ok size ttl : cache_ok (data (newReverseDNSCache size ttl)).
Proof. intros a v. simpl. by rewrite lookup_empty. Qed.

(** Every state of the cache has sorted, duplicate-free name lists. *)
Lemma reachable_ok c : reachable c → cache_ok (data c).
Proof.
  induction 1 as [size ttl|c tr now _ IH|c conns now _ IH|c _ IH|c start _ IH].
  - apply newReverseDNSCache_ok.
  - by apply Add_preserves_ok.
  - by apply Get_preserves_ok.
  - done.
  - by apply expire_preserves_ok.
Qed.

(** Whole seconds, rounded down. *)
Lemma Unix_le_mono t1 t2 : t1 ≤ t2 → time.Unix t1 ≤ time.Unix t2.
Proof. unfold time.Unix, time.Second. intros H. by apply Z.div_le_mono. Qed.

Lemma Unix_add_second t : time.Unix (t + time.Second) = time.Unix t + 1.
Proof.
  unfold time.Unix. replace (t + time.Second) with (t + 1 * time.Second) by lia.
  by rewrite Z.div_add.
Qed.

Lemma Unix_whole_le t1 t2 :
  whole_seconds t1 → whole_seconds t2 → time.Unix t1 ≤ time.Unix t2 ↔ t1 ≤ t2.
Proof.
  unfold whole_seconds, time.Unix, time.Second. intros H1 H2.
  pose proof (Z.div_mod t1 1000000000). pose proof (Z.div_mod t2 1000000000). lia.
Qed.

End expire_facts.

(** ** Behaviour on small inputs *)

Example merge_new_greater :
  names (merge (mkVal ["a.com"; "b.com"] 7) "c.com") = ["a.com"; "b.com"; "c.com"].
Proof. vm_compute. reflexivity. Qed.

Example merge_known :
  names (merge (mkVal ["a.com"; "b.com"] 7) "a.com") = ["a.com"; "b.com"].
Proof. vm_compute. reflexivity. Qed.

Example Add_then_Get :
  (Get (Add small_cache (Some tr_example) 0).2 [conn_example] (30 * time.Second)).1
  = [NamePair.mk (Some ["example.com"]) None].
Proof. vm_compute. reflexivity. Qed.

Example Add_then_sweep_early :
  data (expire (Add small_cache (Some tr_example) 0).2 (359 * time.Second)) !! addr_1_2_3_4
  = Some (mkVal ["example.com"] 180).
Proof. vm_compute. reflexivity. Qed.

Example Add_then_sweep_late :
  data (expire (Add small_cache (Some tr_example) 0).2 (360 * time.Second)) !! addr_1_2_3_4
  = None.
Proof. vm_compute. reflexivity. Qed.

(** ** 64-bit counters *)

Lemma int64_id z : is_int64 z → int64 z = z.
Proof.
  unfold is_int64, int64. intros Hz. rewrite Z.mod_small by lia. lia.
Qed.

Lemma add64_0_r z : is_int64 z → add64 z (int64 0) = z.
Proof. intros Hz. unfold add64. rewrite (int64_id 0) by (unfold is_int64; lia).
  rewrite Z.add_0_r. by apply int64_id. Qed.

(** ** Touches *)

Lemma Add_touches c tr now a :
  map_len (data c) < size c → a ∈ ips tr → touched_at (Add c (Some tr) now).2 a now.
Proof.
  intros Hroom Ha. rewrite Add_accepted by done. unfold touched_at. simpl.
  rewrite Add_translation_lookup, decide_True by done.
  eexists. split; [done|]. apply Add_entry_expiration.
Qed.

Lemma Get_touches c conns now a :
  a ∈ conn_addrs conns → is_Some (data c !! a) → touched_at (Get c conns now).2 a now.
Proof.
  intros Ha [v Hv]. destruct (Get_spec c conns now) as (_ & Hd & Httl & _).
  unfold touched_at. rewrite Hd, decide_True, Hv, Httl by done.
  eexists. split; [done|]. done.
Qed.

(** A sweep that runs at least a second before two ttl periods have passed
    since the last touch keeps the entry as it is. *)
Lemma sweep_keeps_fresh_entry c a t0 s :
  touched_at c a t0 → s + time.Second ≤ t0 + 2 * ttl c →
  data (expire c s) !! a = data c !! a.
Proof.
  intros (v & Hv & Hexp) Hs. rewrite expire_lookup, Hv, Hexp.
  rewrite decide_True; [done|].
  assert (time.Unix (time.Add s (- ttl c)) + 1 ≤ time.Unix (time.Add t0 (ttl c))); [|lia].
  rewrite <- Unix_add_second. apply Unix_le_mono. unfold time.Add. lia.
Qed.

(** * The claims *)

(** C1 (amended). For every cache state holding at least [capacity] distinct
    address keys, Add with any translation, whether its addresses are new or
    already present, returns false and leaves the cache as it was: the entry
    count does not grow, and no existing entry is refreshed or merged. *)
Theorem C1_full_cache_rejects_every_Add c tr now :
  size c ≤ map_len (data c) → Add c tr now = (false, c).
Proof.
  intros Hfull. unfold Add.
  destruct tr as [tr|]; [|reflexivity].
  destruct (Z.geb_spec (map_len (data c)) (size c)) as [_|Hroom].
  - reflexivity.
  - lia.
Qed.

Lemma C1_full_cache_witness :
  size full_cache ≤ map_len (data full_cache) ∧
  Add full_cache (Some tr_b) (100 * time.Second) = (false, full_cache).
Proof.
  split.
  - apply Z.leb_le. vm_compute. reflexivity.
  - apply C1_full_cache_rejects_every_Add. apply Z.leb_le. vm_compute. reflexivity.
Defined.

(** C1 as stated fails: in a cache at capacity, Add with a translation for an
    address that is present returns false, and the entry keeps its old
    expiration and its old names. *)
Lemma C1_existing_address_not_refreshed :
  size full_cache ≤ map_len (data full_cache) ∧
  addr_1_2_3_4 ∈ ips tr_b ∧
  is_Some (data full_cache !! addr_1_2_3_4) ∧
  (Add full_cache (Some tr_b) (100 * time.Second)).1 = false ∧
  time.Unix (time.Add (100 * time.Second) (ttl full_cache)) = 160 ∧
  data (Add full_cache (Some tr_b) (100 * time.Second)).2 !! addr_1_2_3_4
  = Some {| names := ["a.com"]; expiration := 10 |}.
Proof.
  split_and!.
  - apply Z.leb_le. vm_compute. reflexivity.
  - simpl. by apply elem_of_singleton.
  - eexists. vm_compute. reflexivity.
  - vm_compute. reflexivity.
  - vm_compute. reflexivity.
  - vm_compute. reflexivity.
Qed.

(** C2 (amended). For an entry last touched at [t0] with ttl [T] and not
    touched since, a sweep run at [t] removes it if and only if
    [unix(t0 + T) <= unix(t - T)], instants being truncated to whole seconds.
    Hence it is removed whenever [t0 + 2T <= t], it is kept whenever
    [t + 1s <= t0 + 2T] (so it is present at [t0 + 1.5T] when [T >= 2s]), and
    when [t0], [T] and [t] are whole numbers of seconds it is removed exactly
    when [t0 + 2T <= t]. *)
Theorem C2_sweep_removes_after_two_ttl c a t0 t :
  touched_at c a t0 →
  (data (expire c t) !! a = None ↔
     time.Unix (time.Add t0 (ttl c)) ≤ time.Unix (time.Add t (- ttl c))) ∧
  (t0 + 2 * ttl c ≤ t → data (expire c t) !! a = None) ∧
  (t + time.Second ≤ t0 + 2 * ttl c → is_Some (data (expire c t) !! a)) ∧
  (whole_seconds t0 → whole_seconds (ttl c) → whole_seconds t →
     (data (expire c t) !! a = None ↔ t0 + 2 * ttl c ≤ t)).
Proof.
  intros (v & Hv & Hexp).
  assert (data (expire c t) !! a = None ↔
          time.Unix (time.Add t0 (ttl c)) ≤ time.Unix (time.Add t (- ttl c))) as Hiff.
  { rewrite expire_lookup, Hv, Hexp. case_decide; split; (done || lia). }
  split_and!.
  - done.
  - intros Hle. apply Hiff. apply Unix_le_mono. unfold time.Add. lia.
  - intros Hlt. apply not_eq_None_Some. rewrite Hiff.
    assert (time.Unix (time.Add t (- ttl c)) + 1 ≤ time.Unix (time.Add t0 (ttl c))); [|lia].
    rewrite <- Unix_add_second. apply Unix_le_mono. unfold time.Add. lia.
  - intros H0 HT Ht. rewrite Hiff. unfold time.Add.
    rewrite Unix_whole_le; [lia|..]; unfold whole_seconds in *.
    + rewrite Z.add_mod, H0, HT by (unfold time.Second; lia). done.
    + rewrite Z.add_mod, Ht by (unfold time.Second; lia).
      rewrite Z.add_0_l, Z.mod_mod by (unfold time.Second; lia).
      apply Z.mod_divide; [unfold time.Second; lia|].
      apply Z.divide_opp_r. apply Z.mod_divide; [unfold time.Second; lia|done].
Qed.

Lemma C2_sweep_witness :
  touched_at (Add small_cache (Some tr_example) 0).2 addr_1_2_3_4 0 ∧
  data (expire (Add small_cache (Some tr_example) 0).2 (6 * time.Minute)) !! addr_1_2_3_4
  = None.
Proof.
  assert (touched_at (Add small_cache (Some tr_example) 0).2 addr_1_2_3_4 0) as Ht.
  { eexists. split; vm_compute; reflexivity. }
  split; [exact Ht|].
  apply (proj1 (proj2 (C2_sweep_removes_after_two_ttl _ _ 0 (6 * time.Minute) Ht))).
  apply Z.leb_le. vm_compute. reflexivity.
Defined.

(** C2 as stated fails: with the ttl of three minutes, an entry touched 0.9s
    after the epoch is removed by a sweep 360.5s after it, which is before
    [t0 + 2T = 360.9s]. *)
Lemma C2_removed_before_two_ttl :
  let t0 := 900 * time.Millisecond in
  let t := 360 * time.Second + 500 * time.Millisecond in
  let c := (Add small_cache (Some tr_example) t0).2 in
  touched_at c addr_1_2_3_4 t0 ∧
  data (expire c t) !! addr_1_2_3_4 = None ∧
  ¬ (t0 + 2 * ttl c ≤ t).
Proof.
  split_and!.
  - eexists. split; vm_compute; reflexivity.
  - vm_compute. reflexivity.
  - vm_compute. intros H. by apply H.
Qed.

(** With a ttl below two seconds the entry can be gone at [t0 + 1.5T]. *)
Example sweep_at_one_and_a_half_ttl :
  let t0 := 900 * time.Millisecond in
  let c := (Add (newReverseDNSCache 2 time.Second) (Some tr_example) t0).2 in
  data (expire c (t0 + 1500 * time.Millisecond)) !! addr_1_2_3_4 = None.
Proof. vm_compute. reflexivity. Qed.

(** C3: the code at a name that is absent from the list and below one of its
    elements.  The search stops at the first element at or above the name and
    [merge] takes that for a hit: the name is not appended.  Through [Add],
    the second name of an address is lost. *)
Theorem C3_merge_drops_smaller_absent_name :
  let v := {| names := ["b.com"]; expiration := 7 |} in
  names_ok (names v) ∧
  ¬ In "a.com" (names v) ∧
  sort.SearchStrings (names v) "a.com" = 0%nat ∧
  merge v "a.com" = v ∧
  names <$> data (Add (Add small_cache (Some tr_b) 0).2 (Some tr_a) 0).2 !! addr_1_2_3_4
  = Some ["b.com"].
Proof.
  split_and!.
  - apply names_ok_singleton.
  - simpl. intros [[=]|[]].
  - vm_compute. reflexivity.
  - vm_compute. reflexivity.
  - vm_compute. reflexivity.
Qed.

(** The general form of the above: a name that is absent from a sorted list
    is appended only when it is above every element of the list. *)
Lemma merge_absent_iff v x :
  names_ok (names v) → x ∉ names v →
  (names (merge v x) = names v ++ [x] ↔ ∀ y, y ∈ names v → sort.string_lt y x).
Proof.
  intros Hv Hx. destruct (merge_cases v x Hv) as [[Heq (y & Hy & Hle)]|[Heq Hall]].
  - rewrite Heq. split.
    + intros Happ. apply (f_equal length) in Happ. rewrite length_app in Happ.
      simpl in Happ. lia.
    + intros Hall. exfalso. apply (string_lt_irrefl y).
      eapply string_lt_le_trans; [by apply Hall|done].
  - by split.
Qed.

(** C4 (amended). Add returns true if and only if the translation is not nil
    and the cache holds fewer than [capacity] entries when Add is called.
    When it returns true, every address of the translation has an entry whose
    expiration is now + ttl (for an empty address set there is none, and true
    is returned all the same).  When it returns false (nil translation, or
    cache at capacity so that every address is rejected) the cache is
    unchanged. *)
Theorem C4_Add_result c tr now :
  ((Add c tr now).1 = true ↔ ∃ t, tr = Some t ∧ map_len (data c) < size c) ∧
  ((Add c tr now).1 = false → (Add c tr now).2 = c) ∧
  (∀ t a, tr = Some t → (Add c tr now).1 = true → a ∈ ips t →
          touched_at (Add c tr now).2 a now).
Proof.
  destruct (Z.le_gt_cases (size c) (map_len (data c))) as [Hfull|Hroom].
  - rewrite Add_rejected by done. simpl. split_and!; try done.
    split; [done|]. intros (t & _ & Hlt). lia.
  - destruct tr as [t|].
    + rewrite Add_accepted by lia. cbn [fst snd]. split_and!.
      * split; [|done]. intros _. exists t. split; [done|lia].
      * done.
      * intros t' a [= <-] _ Ha. pose proof (Add_touches c t now a) as Htouch.
        rewrite Add_accepted in Htouch by lia. apply Htouch; [lia|done].
    + simpl. split_and!; try done. split; [done|]. by intros (t & Ht & _).
Qed.

Lemma C4_Add_result_witness :
  (Add small_cache (Some tr_example) 0).1 = true ∧
  touched_at (Add small_cache (Some tr_example) 0).2 addr_1_2_3_4 0.
Proof.
  assert ((Add small_cache (Some tr_example) 0).1 = true) as Htrue
    by (vm_compute; reflexivity).
  split; [exact Htrue|].
  apply (proj2 (proj2 (C4_Add_result small_cache (Some tr_example) 0))
           tr_example addr_1_2_3_4 eq_refl Htrue).
  simpl. by apply elem_of_singleton.
Defined.

(** C4 as stated fails: below capacity, Add with a translation that has no
    address returns true although no entry is stored or refreshed. *)
Lemma C4_true_for_empty_translation :
  ips tr_no_address = ∅ ∧
  (Add small_cache (Some tr_no_address) 0).1 = true ∧
  data (Add small_cache (Some tr_no_address) 0).2 = data small_cache.
Proof. split_and!; vm_compute; reflexivity. Qed.

(** C5. For every cache below capacity and every translation whose addresses
    are not yet in the cache, after Add(translation, now) a Get at any
    instant (the same one or a later one) on a connection whose source
    (destination) is one of those addresses returns, for that side, a name
    list that contains the translation's name. *)
Theorem C5_Get_after_Add c tr now later conns i conn :
  map_len (data c) < size c →
  (∀ a, a ∈ ips tr → data c !! a = None) →
  conns !! i = Some conn →
  ∃ pair, (Get (Add c (Some tr) now).2 conns later).1 !! i = Some pair ∧
    (ConnectionStats.Source conn ∈ ips tr →
       ∃ l, NamePair.Source pair = Some l ∧ name tr ∈ l) ∧
    (ConnectionStats.Dest conn ∈ ips tr →
       ∃ l, NamePair.Dest pair = Some l ∧ name tr ∈ l).
Proof.
  intros Hroom Hnew Hi.
  destruct (Get_spec (Add c (Some tr) now).2 conns later) as (-> & _).
  rewrite list_lookup_fmap, Hi, Add_accepted by done.
  cbn [snd data with_len with_data].
  eexists. split; [reflexivity|].
  split; intros Hin; cbn [names_of NamePair.Source NamePair.Dest];
    rewrite Add_translation_lookup, decide_True, (Hnew _ Hin) by done;
    (eexists; split; [reflexivity|]); by apply list_elem_of_singleton.
Qed.

Lemma C5_Get_after_Add_witness :
  map_len (data small_cache) < size small_cache ∧
  (∀ a, a ∈ ips tr_example → data small_cache !! a = None) ∧
  [conn_example] !! 0%nat = Some conn_example ∧
  ∃ pair,
    (Get (Add small_cache (Some tr_example) 0).2 [conn_example] (30 * time.Second)).1 !! 0%nat
    = Some pair ∧
    (ConnectionStats.Source conn_example ∈ ips tr_example →
       ∃ l, NamePair.Source pair = Some l ∧ name tr_example ∈ l) ∧
    (ConnectionStats.Dest conn_example ∈ ips tr_example →
       ∃ l, NamePair.Dest pair = Some l ∧ name tr_example ∈ l).
Proof.
  assert (map_len (data small_cache) < size small_cache) as Hroom
    by (apply Z.ltb_lt; vm_compute; reflexivity).
  assert (∀ a, a ∈ ips tr_example → data small_cache !! a = None) as Hnew
    by (intros a _; apply lookup_empty).
  split; [exact Hroom|]. split; [exact Hnew|]. split; [reflexivity|].
  exact (C5_Get_after_Add small_cache tr_example 0 (30 * time.Second)
           [conn_example] 0%nat conn_example Hroom Hnew eq_refl).
Defined.

(** C6. For every state of the cache below capacity, adding the same
    translation a second time leaves every entry's name list as the first
    Add left it, and no name list holds a name twice. *)
Theorem C6_Add_twice_same_names c tr now1 now2 :
  reachable c →
  map_len (data c) < size c →
  let c1 := (Add c (Some tr) now1).2 in
  let c2 := (Add c1 (Some tr) now2).2 in
  same_names (data c2) (data c1) ∧
  (∀ a v, data c2 !! a = Some v → NoDup (names v)).
Proof.
  intros Hc Hroom c1 c2. split.
  - subst c2. destruct (Z.le_gt_cases (size c1) (map_len (data c1))) as [Hfull|Hroom1].
    { by rewrite Add_rejected. }
    rewrite Add_accepted by lia. intros a. cbn [snd data with_len with_data].
    rewrite Add_translation_lookup. case_decide as Ha; [|done].
    subst c1. rewrite Add_accepted by done. cbn [snd data with_len with_data ttl].
    rewrite Add_translation_lookup, decide_True by done. cbn [fmap option_fmap option_map].
    f_equal. apply Add_entry_idemp.
  - intros a v Hv. apply names_ok_NoDup.
    assert (reachable c2) as Hc2 by (by do 2 apply reachable_Add).
    by eapply (reachable_ok c2).
Qed.

Lemma C6_Add_twice_witness :
  reachable small_cache ∧
  map_len (data small_cache) < size small_cache ∧
  let c1 := (Add small_cache (Some tr_example) 0).2 in
  let c2 := (Add c1 (Some tr_example) time.Second).2 in
  same_names (data c2) (data c1) ∧
  (∀ a v, data c2 !! a = Some v → NoDup (names v)).
Proof.
  assert (map_len (data small_cache) < size small_cache) as Hroom
    by (apply Z.ltb_lt; vm_compute; reflexivity).
  split; [apply reachable_new|]. split; [exact Hroom|].
  apply (C6_Add_twice_same_names small_cache tr_example 0 time.Second);
    [apply reachable_new|exact Hroom].
Defined.

(** C7. For every list of N connections, Get returns exactly N name pairs,
    and the i-th pair holds the names the cache has for the source and for the
    destination of the i-th connection ([None] for a miss). *)
Theorem C7_Get_one_pair_per_connection c conns now :
  length (Get c conns now).1 = length conns ∧
  (Get c conns now).1 = names_of (data c) <$> conns ∧
  (∀ i, (Get c conns now).1 !! i = names_of (data c) <$> conns !! i).
Proof.
  destruct (Get_spec c conns now) as (Hpairs & _). rewrite Hpairs. split_and!.
  - apply length_fmap.
  - done.
  - intros i. apply list_lookup_fmap.
Qed.

(** C8. Get(conns, now) changes, in the map of entries, only the expiration
    of the entries whose address is a source or a destination in conns, and
    sets it to now + ttl (in Unix seconds); every name list and every entry
    that is not looked up stay as they were, as do ttl, capacity and the
    length gauge; the list returned for a hit equals the names of the stored
    entry. *)
Theorem C8_Get_touches_only_expirations c conns now :
  let c' := (Get c conns now).2 in
  (∀ a, a ∈ conn_addrs conns →
     data c' !! a = touch (time.Unix (time.Add now (ttl c))) <$> data c !! a) ∧
  (∀ a, a ∉ conn_addrs conns → data c' !! a = data c !! a) ∧
  same_names (data c') (data c) ∧
  (ttl c' = ttl c ∧ size c' = size c ∧ len c' = len c) ∧
  (∀ i conn v, conns !! i = Some conn →
     (data c !! ConnectionStats.Source conn = Some v →
        NamePair.Source <$> (Get c conns now).1 !! i = Some (Some (names v))) ∧
     (data c !! ConnectionStats.Dest conn = Some v →
        NamePair.Dest <$> (Get c conns now).1 !! i = Some (Some (names v)))).
Proof.
  intros c'. subst c'.
  destruct (Get_spec c conns now) as (Hpairs & Hd & Httl & Hsize & Hlen).
  split_and!; try done.
  - intros a Ha. by rewrite Hd, decide_True.
  - intros a Ha. by rewrite Hd, decide_False.
  - intros a. rewrite Hd. case_decide; [|done]. by destruct (data c !! a).
  - intros i conn v Hi. rewrite Hpairs, list_lookup_fmap, Hi.
    split; intros Hv; cbn [fmap option_fmap option_map names_of
                           NamePair.Source NamePair.Dest]; by rewrite Hv.
Qed.

Lemma C8_Get_witness :
  let c := (Add small_cache (Some tr_example) 0).2 in
  data (Get c [conn_example] (30 * time.Second)).2 !! addr_1_2_3_4
  = Some {| names := ["example.com"]; expiration := 210 |} ∧
  NamePair.Source <$> (Get c [conn_example] (30 * time.Second)).1 !! 0%nat
  = Some (Some ["example.com"]).
Proof.
  intros c.
  destruct (C8_Get_touches_only_expirations c [conn_example] (30 * time.Second))
    as (Htouch & _ & _ & _ & Hpairs).
  split.
  - rewrite Htouch.
    + vm_compute. reflexivity.
    + apply conn_addrs_cons. by left.
  - apply (proj1 (Hpairs 0%nat conn_example
                    {| names := ["example.com"]; expiration := 180 |} eq_refl)).
    vm_compute. reflexivity.
Defined.

(** C9. In the statistics loop, a tick on which the socket statistics cannot
    be read leaves the counters of the snooper and the baselines as they
    were: the run is the one with the failed ticks taken out, and the next
    successful tick adds the difference to the baseline of the last
    successful one. *)
Theorem C9_failed_tick_is_skipped s v sourceStats events :
  pollStats_tick (s, v) sourceStats None = (s, v) ∧
  pollStats_loop (ticker_C sourceStats None :: events) (s, v) = pollStats_loop events (s, v) ∧
  pollStats_loop events (s, v) =
    pollStats_loop (filter (λ e, tick_succeeds e = true) events) (s, v) ∧
  (∀ sourceStats' socketStats,
     let s' := (pollStats_tick (pollStats_tick (s, v) sourceStats None)
                  sourceStats' (Some socketStats)).1 in
     polls s' = add64 (polls s) (sub64 (afpacket.Polls sourceStats') (prevPolls v)) ∧
     processed s' =
       add64 (processed s) (sub64 (afpacket.Packets sourceStats') (prevProcessed v)) ∧
     captured s' =
       add64 (captured s)
         (sub64 (int64 (afpacket.SocketStatsV3_Packets socketStats)) (prevCaptured v)) ∧
     dropped s' =
       add64 (dropped s)
         (sub64 (int64 (afpacket.SocketStatsV3_Drops socketStats)) (prevDropped v))).
Proof.
  split_and!; try done.
  generalize (s, v). clear s v. induction events as [|e events IH]; intros st; [done|].
  rewrite filter_cons. destruct e as [src [sock|]|]; simpl.
  - apply IH.
  - destruct st as [s v]. apply IH.
  - done.
Qed.

(** C10. Get adds the number of connections to [lookups] and to [resolved]
    the number of connections whose destination address is in the cache;
    a connection whose source address is known and whose destination address
    is not counts as a lookup and not as resolved. *)
Theorem C10_resolved_counts_destinations c conns now :
  is_int64 (lookups c) → is_int64 (resolved c) →
  lookups (Get c conns now).2 = add64 (lookups c) (int64 (Z.of_nat (length conns))) ∧
  resolved (Get c conns now).2 = add64 (resolved c) (int64 (dest_hits (data c) conns)) ∧
  (∀ conn, is_Some (data c !! ConnectionStats.Source conn) →
           data c !! ConnectionStats.Dest conn = None →
           lookups (Get c [conn] now).2 = add64 (lookups c) 1 ∧
           resolved (Get c [conn] now).2 = resolved c).
Proof.
  intros Hl Hr.
  assert (∀ conns,
    lookups (Get c conns now).2 = add64 (lookups c) (int64 (Z.of_nat (length conns))) ∧
    resolved (Get c conns now).2 = add64 (resolved c) (int64 (dest_hits (data c) conns)))
    as Hgen.
  { clear conns. intros conns. unfold Get. destruct conns as [|conn conns].
    { cbn [length Nat.eqb snd]. unfold dest_hits. simpl.
      by rewrite !add64_0_r. }
    cbn [length Nat.eqb].
    pose proof (Get_loop_spec (conn :: conns) (time.Unix (time.Add now (ttl c))) (data c) 0)
      as Hloop.
    destruct (Get_loop (conn :: conns) _ (data c) 0) as [[pairs r'] d'].
    destruct Hloop as (_ & -> & _). by rewrite Z.add_0_l. }
  split; [apply Hgen|]. split; [apply Hgen|].
  intros conn Hsrc Hdst. destruct (Hgen [conn]) as [-> ->]. split; [done|].
  rewrite dest_hits_cons. unfold dest_known.
  rewrite bool_decide_false by (rewrite Hdst; by intros [? ?]).
  unfold dest_hits. simpl. by apply add64_0_r.
Qed.

Lemma C10_resolved_witness :
  let c := (Add small_cache (Some tr_example) 0).2 in
  is_int64 (lookups c) ∧ is_int64 (resolved c) ∧
  lookups (Get c [conn_example] 0).2 = 1 ∧
  resolved (Get c [conn_example] 0).2 = 0.
Proof.
  intros c.
  assert (is_int64 (lookups c)) as Hl by (vm_compute; split; [discriminate|reflexivity]).
  assert (is_int64 (resolved c)) as Hr by (vm_compute; split; [discriminate|reflexivity]).
  split; [exact Hl|]. split; [exact Hr|].
  destruct (C10_resolved_counts_destinations c [conn_example] 0 Hl Hr) as (_ & _ & Hone).
  destruct (Hone conn_example) as [-> ->].
  - eexists. vm_compute. reflexivity.
  - vm_compute. reflexivity.
  - split; vm_compute; reflexivity.
Defined.

(** * Further properties of the cache *)

(** ** Arithmetic on 64-bit counters *)

Lemma int64_decomp z : ∃ k, int64 z = z + k * 2 ^ 64.
Proof.
  exists (- ((z + 2 ^ 63) / 2 ^ 64)). unfold int64.
  pose proof (Z.div_mod (z + 2 ^ 63) (2 ^ 64)). lia.
Qed.

Lemma int64_range z : is_int64 (int64 z).
Proof.
  unfold is_int64, int64. pose proof (Z.mod_pos_bound (z + 2 ^ 63) (2 ^ 64)). lia.
Qed.

Lemma int64_congr x y k : x = y + k * 2 ^ 64 → int64 x = int64 y.
Proof.
  intros ->. unfold int64. f_equal.
  replace (y + k * 2 ^ 64 + 2 ^ 63) with (y + 2 ^ 63 + k * 2 ^ 64) by lia.
  apply Z_mod_plus_full.
Qed.

Lemma int64_idemp z : int64 (int64 z) = int64 z.
Proof. apply int64_id, int64_range. Qed.

(** Differences to two successive baselines add up to the difference to the
    first one. *)
Lemma add64_telescope p a b q :
  add64 (add64 p (sub64 a q)) (sub64 b a) = add64 p (sub64 b q).
Proof.
  unfold add64, sub64.
  destruct (int64_decomp (a - q)) as [k1 ->].
  destruct (int64_decomp (b - a)) as [k2 ->].
  destruct (int64_decomp (b - q)) as [k3 ->].
  destruct (int64_decomp (p + (a - q + k1 * 2 ^ 64))) as [k4 ->].
  apply (int64_congr _ _ (k1 + k2 + k4 - k3)). lia.
Qed.

Lemma add64_sub64_same p a : is_int64 p → add64 p (sub64 a a) = p.
Proof.
  intros Hp. unfold add64, sub64. rewrite Z.sub_diag.
  rewrite (int64_id 0) by (unfold is_int64; lia). rewrite Z.add_0_r. by apply int64_id.
Qed.

(** ** Names are kept *)

Lemma merge_names_subseteq v x :
  names_ok (names v) →
  names v ⊆ names (merge v x) ∧ names (merge v x) ⊆ x :: names v.
Proof.
  intros Hv. destruct (merge_cases v x Hv) as [[-> _]|[-> _]].
  - split; [done|]. intros y Hy. by right.
  - split; intros y Hy.
    + apply elem_of_app. by left.
    + apply elem_of_app in Hy as [Hy| ->%list_elem_of_singleton].
      * by right.
      * by left.
Qed.

Lemma merge_names_nonempty v x : names v ≠ [] → names (merge v x) ≠ [].
Proof.
  intros Hv.
  destruct (Nat.lt_ge_cases (sort.SearchStrings (names v) x) (length (names v)))
    as [Hlt|Hge]; [by rewrite merge_found|].
  rewrite merge_not_found by done. simpl.
  intros Hnil.
  assert (sort.Strings (names v ++ [x]) ≡ₚ names v ++ [x]) as Hp
    by apply merge_sort_Permutation.
  rewrite Hnil in Hp.
  apply Permutation_nil_l in Hp. by destruct (names v).
Qed.

Lemma Add_entry_nonempty name exp o :
  (∀ v, o = Some v → names v ≠ []) → names (Add_entry name exp o) ≠ [].
Proof.
  intros Ho. destruct o as [v|]; simpl; [|done].
  apply merge_names_nonempty. simpl. by apply Ho.
Qed.

Lemma Add_data_lookup c tr now a :
  data (Add c tr now).2 !! a =
  match tr with
  | Some t =>
      if decide (map_len (data c) < size c ∧ a ∈ ips t)
      then Some (Add_entry (name t) (time.Unix (time.Add now (ttl c))) (data c !! a))
      else data c !! a
  | None => data c !! a
  end.
Proof.
  destruct tr as [t|]; [|done].
  destruct (Z.le_gt_cases (size c) (map_len (data c))) as [Hfull|Hroom].
  - rewrite Add_rejected by done. rewrite decide_False by lia. done.
  - rewrite Add_accepted by lia. cbn [snd data with_len with_data].
    rewrite Add_translation_lookup.
    destruct (decide (a ∈ ips t)) as [Ha|Ha].
    + rewrite decide_True; [done|]. split; [lia|done].
    + rewrite decide_False; [done|]. by intros [_ ?].
Qed.

Lemma Add_fields c tr now :
  ttl (Add c tr now).2 = ttl c ∧ size (Add c tr now).2 = size c ∧
  lookups (Add c tr now).2 = lookups c ∧ resolved (Add c tr now).2 = resolved c.
Proof.
  unfold Add. destruct tr as [t|]; [|done]. by destruct (_ >=? _).
Qed.

Lemma Add_preserves_nonempty c tr now :
  nonempty_names (data c) → nonempty_names (data (Add c tr now).2).
Proof.
  intros Hc a v. rewrite Add_data_lookup. destruct tr as [t|]; [|apply Hc].
  case_decide; [|apply Hc]. intros [= <-]. apply Add_entry_nonempty.
  intros w Hw. by eapply Hc.
Qed.

Lemma reachable_nonempty c : reachable c → nonempty_names (data c).
Proof.
  induction 1 as [size ttl|c tr now _ IH|c conns now _ IH|c _ IH|c start _ IH].
  - intros a v. simpl. by rewrite lookup_empty.
  - by apply Add_preserves_nonempty.
  - intros a v. destruct (Get_spec c conns now) as (_ & Hd & _). rewrite Hd.
    case_decide; [|apply IH].
    destruct (data c !! a) as [w|] eqn:Hw; [|done]. intros [= <-]. simpl. by eapply IH.
  - done.
  - intros a v. rewrite expire_lookup.
    destruct (data c !! a) as [w|] eqn:Hw; [|done].
    case_decide; [|done]. intros [= <-]. by eapply IH.
Qed.

(** X1. In every state the cache goes through, the name list of every entry
    is sorted in strictly increasing order, holds no name twice and is not
    empty. *)
Theorem X1_entries_sorted_nodup_nonempty c a v :
  reachable c → data c !! a = Some v →
  StronglySorted sort.string_lt (names v) ∧ NoDup (names v) ∧ names v ≠ [].
Proof.
  intros Hc Hv. split_and!.
  - by eapply (reachable_ok c).
  - apply names_ok_NoDup. by eapply (reachable_ok c).
  - by eapply (reachable_nonempty c).
Qed.

Lemma X1_entries_witness :
  reachable (Add cache_one (Some tr_later) time.Second).2 ∧
  data (Add cache_one (Some tr_later) time.Second).2 !! addr_1_2_3_4
  = Some {| names := ["example.com"; "www.example.com"]; expiration := 181 |} ∧
  StronglySorted sort.string_lt ["example.com"; "www.example.com"] ∧
  NoDup ["example.com"; "www.example.com"] ∧
  ["example.com"; "www.example.com"] ≠ [].
Proof.
  assert (reachable (Add cache_one (Some tr_later) time.Second).2) as Hc.
  { apply reachable_Add. apply reachable_Add. apply reachable_new. }
  assert (data (Add cache_one (Some tr_later) time.Second).2 !! addr_1_2_3_4
          = Some {| names := ["example.com"; "www.example.com"]; expiration := 181 |}) as Hv
    by (vm_compute; reflexivity).
  split; [exact Hc|]. split; [exact Hv|].
  exact (X1_entries_sorted_nodup_nonempty _ _ _ Hc Hv).
Defined.

(** ** The set of addresses and the length gauge *)

Lemma dom_eq_of_lookup (d1 d2 : gmap Address dnsCacheVal) :
  (∀ a, is_Some (d1 !! a) ↔ is_Some (d2 !! a)) → dom d1 = dom d2.
Proof. intros H. apply set_eq. intros a. by rewrite !elem_of_dom. Qed.

Lemma map_len_dom (d : gmap Address dnsCacheVal) : map_len d = set_len (dom d).
Proof. unfold map_len, set_len. by rewrite size_dom. Qed.

Lemma Get_dom c conns now : dom (data (Get c conns now).2) = dom (data c).
Proof.
  apply dom_eq_of_lookup. intros a.
  destruct (Get_spec c conns now) as (_ & Hd & _). rewrite Hd.
  case_decide; [|done]. by rewrite fmap_is_Some.
Qed.

Lemma Get_map_len c conns now : map_len (data (Get c conns now).2) = map_len (data c).
Proof. by rewrite !map_len_dom, Get_dom. Qed.

Lemma Add_dom c t now :
  map_len (data c) < size c →
  dom (data (Add c (Some t) now).2) = dom (data c) ∪ ips t.
Proof.
  intros Hroom. apply set_eq. intros a.
  rewrite elem_of_union, !elem_of_dom, Add_data_lookup.
  destruct (decide (a ∈ ips t)) as [Ha|Ha].
  - rewrite decide_True by done. split; [by right|by eexists].
  - rewrite decide_False by (by intros [_ ?]). split; [by left|by intros [?|?]].
Qed.




(** X3. The entries Add leaves do not depend on the order in which the
    iteration over the addresses of the translation visits them. *)
Theorem X3_Add_in_any_order tr exp d addrs :
  addrs ≡ₚ elements (ips tr) →
  Add_loop (name tr) exp addrs d = Add_loop (name tr) exp (elements (ips tr)) d.
Proof.
  intros Hp. symmetry. apply Add_loop_order; [apply NoDup_elements|done].
Qed.

Lemma X3_Add_in_any_order_witness :
  [addr_1_2_3_6; addr_1_2_3_4; addr_1_2_3_5] ≡ₚ elements (ips tr_three) ∧
  Add_loop (name tr_three) 180 [addr_1_2_3_6; addr_1_2_3_4; addr_1_2_3_5] (data cache_one)
  = Add_loop (name tr_three) 180 (elements (ips tr_three)) (data cache_one).
Proof.
  assert ([addr_1_2_3_6; addr_1_2_3_4; addr_1_2_3_5] ≡ₚ elements (ips tr_three)) as Hp.
  { apply NoDup_Permutation.
    - apply (bool_decide_unpack (NoDup [addr_1_2_3_6; addr_1_2_3_4; addr_1_2_3_5])).
      vm_compute. exact I.
    - apply NoDup_elements.
    - intros a. rewrite elem_of_elements. unfold tr_three. simpl.
      rewrite !elem_of_union, !elem_of_singleton, !elem_of_cons, elem_of_nil. tauto. }
  split; [exact Hp|]. exact (X3_Add_in_any_order tr_three 180 (data cache_one) _ Hp).
Defined.

(** X4. Below capacity, Add stores every address of the translation: the
    addresses of the cache afterwards are the old ones and those of the
    translation.  The capacity is tested once per call, so the cache can go
    over it, by at most the number of addresses of the translation less one. *)
Theorem X4_Add_stores_all_addresses c t now :
  map_len (data c) < size c →
  dom (data (Add c (Some t) now).2) = dom (data c) ∪ ips t ∧
  map_len (data c) ≤ map_len (data (Add c (Some t) now).2) ∧
  map_len (data (Add c (Some t) now).2) ≤ size c - 1 + set_len (ips t).
Proof.
  intros Hroom. pose proof (Add_dom c t now Hroom) as Hdom.
  split; [done|]. rewrite !map_len_dom, Hdom in *. unfold set_len.
  pose proof (size_union_alt (dom (data c)) (ips t)) as Hu.
  pose proof (subseteq_size (ips t ∖ dom (data c)) (ips t)) as Hs.
  assert (base.size (ips t ∖ dom (data c)) ≤ base.size (ips t))%nat as Hle.
  { apply Hs. intros a Ha. by apply elem_of_difference in Ha as [Ha _]. }
  unfold set_len in Hroom. lia.
Qed.

Lemma X4_Add_over_capacity_witness :
  map_len (data small_cache) < size small_cache ∧
  size small_cache = 2 ∧
  map_len (data (Add small_cache (Some tr_three) 0).2) = 3.
Proof.
  assert (map_len (data small_cache) < size small_cache) as Hroom
    by (apply Z.ltb_lt; vm_compute; reflexivity).
  split; [exact Hroom|]. split; [reflexivity|].
  rewrite map_len_dom.
  rewrite (proj1 (X4_Add_stores_all_addresses small_cache tr_three 0 Hroom)).
  vm_compute. reflexivity.
Defined.

(** ** What Add does to the entries *)

(** X5. Add never removes an entry or a name: an entry of the cache is still
    there afterwards with all its names, and the only name it can have gained
    is the name of the translation, when its address is one of the
    translation's. *)
Theorem X5_Add_keeps_entries_and_names c tr now a v :
  reachable c → data c !! a = Some v →
  ∃ v', data (Add c tr now).2 !! a = Some v' ∧
        names v ⊆ names v' ∧
        (∀ x, x ∈ names v' →
              x ∈ names v ∨ ∃ t, tr = Some t ∧ a ∈ ips t ∧ x = name t).
Proof.
  intros Hc Hv. rewrite Add_data_lookup. destruct tr as [t|].
  - case_decide as Hadd.
    + rewrite Hv. eexists. split; [done|]. cbn [Add_entry].
      assert (names_ok (names (touch (time.Unix (time.Add now (ttl c))) v))) as Hok
        by (simpl; by eapply (reachable_ok c)).
      destruct (merge_names_subseteq _ (name t) Hok) as [Hsub Hsup].
      split; [done|]. intros x Hx. apply Hsup in Hx.
      apply elem_of_cons in Hx as [->|Hx]; [|by left].
      right. exists t. by destruct Hadd.
    + exists v. split; [done|]. split; [done|]. intros x Hx. by left.
  - exists v. split; [done|]. split; [done|]. intros x Hx. by left.
Qed.

Lemma X5_Add_keeps_witness :
  reachable cache_one ∧
  data cache_one !! addr_1_2_3_4 = Some {| names := ["example.com"]; expiration := 180 |} ∧
  ∃ v', data (Add cache_one (Some tr_later) 0).2 !! addr_1_2_3_4 = Some v' ∧
        ["example.com"] ⊆ names v'.
Proof.
  assert (reachable cache_one) as Hc by apply reachable_Add, reachable_new.
  assert (data cache_one !! addr_1_2_3_4
          = Some {| names := ["example.com"]; expiration := 180 |}) as Hv
    by (vm_compute; reflexivity).
  split; [exact Hc|]. split; [exact Hv|].
  destruct (X5_Add_keeps_entries_and_names cache_one (Some tr_later) 0 _ _ Hc Hv)
    as (v' & Hv' & Hsub & _).
  exists v'. split; [exact Hv'|exact Hsub].
Defined.

(** X6. Add leaves alone what it is not asked about: the entry at an address
    that is not in the translation is unchanged, expiration included, and so
    are the ttl, the capacity and the two counters of the cache. *)
Theorem X6_Add_frame c t now a :
  a ∉ ips t →
  data (Add c (Some t) now).2 !! a = data c !! a ∧
  ttl (Add c (Some t) now).2 = ttl c ∧ size (Add c (Some t) now).2 = size c ∧
  lookups (Add c (Some t) now).2 = lookups c ∧
  resolved (Add c (Some t) now).2 = resolved c.
Proof.
  intros Ha. split; [|apply Add_fields].
  rewrite Add_data_lookup. rewrite decide_False; [done|]. by intros [_ ?].
Qed.

Lemma X6_Add_frame_witness :
  (addr_9_9_9_9 ∉ ips tr_later) ∧
  data (Add cache_one (Some tr_later) 0).2 !! addr_9_9_9_9 = data cache_one !! addr_9_9_9_9.
Proof.
  assert (addr_9_9_9_9 ∉ ips tr_later) as Ha.
  { simpl. rewrite elem_of_singleton. discriminate. }
  split; [exact Ha|]. exact (proj1 (X6_Add_frame cache_one tr_later 0 _ Ha)).
Defined.

(** X7. Below capacity, Add for an address whose entry already holds the
    name only resets the expiration of the entry to now + ttl. *)
Theorem X7_Add_known_name_refreshes c t now a v :
  reachable c → map_len (data c) < size c →
  a ∈ ips t → data c !! a = Some v → name t ∈ names v →
  data (Add c (Some t) now).2 !! a
  = Some {| names := names v; expiration := time.Unix (time.Add now (ttl c)) |}.
Proof.
  intros Hc Hroom Ha Hv Hname. rewrite Add_data_lookup, decide_True, Hv by done.
  cbn [Add_entry]. rewrite merge_present; [done| |done].
  simpl. by eapply (reachable_ok c).
Qed.

Lemma X7_Add_known_name_witness :
  data (Add cache_one (Some tr_example) (10 * time.Second)).2 !! addr_1_2_3_4
  = Some {| names := ["example.com"]; expiration := 190 |}.
Proof.
  apply (X7_Add_known_name_refreshes cache_one tr_example (10 * time.Second)
           addr_1_2_3_4 {| names := ["example.com"]; expiration := 180 |}).
  - apply reachable_Add, reachable_new.
  - apply Z.ltb_lt. vm_compute. reflexivity.
  - simpl. by apply elem_of_singleton.
  - vm_compute. reflexivity.
  - simpl. by apply list_elem_of_singleton.
Defined.

(** X8. Below capacity, Add for an address whose entry holds only names below
    the new one appends the name and resets the expiration; a Get then
    returns the old names followed by the new one. *)
Theorem X8_Add_greater_name_appends c t now later a v conn :
  reachable c → map_len (data c) < size c →
  a ∈ ips t → data c !! a = Some v →
  (∀ y, y ∈ names v → sort.string_lt y (name t)) →
  ConnectionStats.Source conn = a →
  data (Add c (Some t) now).2 !! a
  = Some {| names := names v ++ [name t];
            expiration := time.Unix (time.Add now (ttl c)) |} ∧
  NamePair.Source <$> (Get (Add c (Some t) now).2 [conn] later).1 !! 0%nat
  = Some (Some (names v ++ [name t])).
Proof.
  intros Hc Hroom Ha Hv Hlt Hconn.
  assert (data (Add c (Some t) now).2 !! a
          = Some {| names := names v ++ [name t];
                    expiration := time.Unix (time.Add now (ttl c)) |}) as Hres.
  { rewrite Add_data_lookup, decide_True, Hv by done. cbn [Add_entry]. f_equal.
    assert (names_ok (names (touch (time.Unix (time.Add now (ttl c))) v))) as Hok
      by (simpl; by eapply (reachable_ok c)).
    destruct (merge_cases _ (name t) Hok) as [[_ (y & Hy & Hle)]|[Hnames _]].
    - exfalso. apply (string_lt_irrefl y). eapply string_lt_le_trans; [|done].
      by apply Hlt.
    - pose proof (merge_expiration (touch (time.Unix (time.Add now (ttl c))) v) (name t))
        as Hexp.
      destruct (merge _ _) as [ns e]. simpl in *. by subst. }
  split; [done|].
  destruct (Get_spec (Add c (Some t) now).2 [conn] later) as (-> & _).
  rewrite list_lookup_fmap. change ([conn] !! 0%nat) with (Some conn).
  cbn [fmap option_fmap option_map names_of NamePair.Source].
  by rewrite Hconn, Hres.
Qed.

Lemma X8_Add_greater_name_witness :
  data (Add cache_one (Some tr_later) time.Second).2 !! addr_1_2_3_4
  = Some {| names := ["example.com"; "www.example.com"]; expiration := 181 |} ∧
  NamePair.Source <$>
    (Get (Add cache_one (Some tr_later) time.Second).2 [conn_example] time.Minute).1 !! 0%nat
  = Some (Some ["example.com"; "www.example.com"]).
Proof.
  apply (X8_Add_greater_name_appends cache_one tr_later time.Second time.Minute
           addr_1_2_3_4 {| names := ["example.com"]; expiration := 180 |} conn_example).
  - apply reachable_Add, reachable_new.
  - apply Z.ltb_lt. vm_compute. reflexivity.
  - simpl. by apply elem_of_singleton.
  - vm_compute. reflexivity.
  - simpl. intros y ->%list_elem_of_singleton. vm_compute. reflexivity.
  - reflexivity.
Defined.

(** X9. On a sorted name list without repetition, merge keeps every name,
    adds no name but the one merged, keeps the list sorted without
    repetition and leaves the expiration alone; merging the same name again
    changes nothing. *)
Theorem X9_merge_keeps_order_and_names v x :
  StronglySorted sort.string_lt (names v) →
  StronglySorted sort.string_lt (names (merge v x)) ∧
  NoDup (names (merge v x)) ∧
  names v ⊆ names (merge v x) ∧
  names (merge v x) ⊆ x :: names v ∧
  expiration (merge v x) = expiration v ∧
  merge (merge v x) x = merge v x.
Proof.
  intros Hv. pose proof (merge_names_ok v x Hv) as Hok.
  destruct (merge_names_subseteq v x Hv) as [Hsub Hsup].
  split_and!; try done.
  - by apply names_ok_NoDup.
  - apply merge_expiration.
  - apply merge_idemp.
Qed.

Lemma X9_merge_witness :
  StronglySorted sort.string_lt ["a.com"; "b.com"] ∧
  names (merge {| names := ["a.com"; "b.com"]; expiration := 7 |} "c.com")
  = ["a.com"; "b.com"; "c.com"] ∧
  StronglySorted sort.string_lt
    (names (merge {| names := ["a.com"; "b.com"]; expiration := 7 |} "c.com")).
Proof.
  assert (StronglySorted sort.string_lt ["a.com"; "b.com"]) as Hs.
  { apply (names_ok_snoc ["a.com"] "b.com"); [apply names_ok_singleton|].
    intros y ->%list_elem_of_singleton. vm_compute. reflexivity. }
  split; [exact Hs|]. split; [vm_compute; reflexivity|].
  exact (proj1 (X9_merge_keeps_order_and_names
                  {| names := ["a.com"; "b.com"]; expiration := 7 |} "c.com" Hs)).
Defined.

(** ** Lookups, sweeps and statistics together *)

(** X10. Get neither adds nor removes an entry: the addresses and the number
    of entries are those before the call, and what any later Get returns is
    what it would have returned without the first one. *)
Theorem X10_Get_keeps_entries c conns now conns' later :
  dom (data (Get c conns now).2) = dom (data c) ∧
  map_len (data (Get c conns now).2) = map_len (data c) ∧
  (Get (Get c conns now).2 conns' later).1 = (Get c conns' later).1.
Proof.
  split; [apply Get_dom|]. split; [apply Get_map_len|].
  destruct (Get_spec (Get c conns now).2 conns' later) as (-> & _).
  destruct (Get_spec c conns' later) as (-> & _).
  apply list_fmap_ext. intros _ conn _. apply names_of_ext.
  intros a. destruct (Get_spec c conns now) as (_ & Hd & _). rewrite Hd.
  case_decide; [|done]. by destruct (data c !! a).
Qed.

(** X11. A lookup is a touch: an entry found by a Get at [now] is kept by
    every sweep that runs at least a second before [now + 2 ttl], whatever
    its expiration was before the Get. *)
Theorem X11_Get_extends_lifetime c conns now s a v :
  a ∈ conn_addrs conns → data c !! a = Some v →
  s + time.Second ≤ now + 2 * ttl c →
  data (expire (Get c conns now).2 s) !! a
  = Some {| names := names v; expiration := time.Unix (time.Add now (ttl c)) |}.
Proof.
  intros Ha Hv Hs.
  rewrite (sweep_keeps_fresh_entry _ a now s).
  - destruct (Get_spec c conns now) as (_ & Hd & _).
    by rewrite Hd, decide_True, Hv.
  - apply Get_touches; [done|by eexists].
  - by destruct (Get_spec c conns now) as (_ & _ & -> & _).
Qed.

Lemma X11_Get_extends_lifetime_witness :
  data (expire cache_one (6 * time.Minute)) !! addr_1_2_3_4 = None ∧
  data (expire (Get cache_one [conn_example] (5 * time.Minute)).2 (6 * time.Minute))
    !! addr_1_2_3_4
  = Some {| names := ["example.com"]; expiration := 480 |}.
Proof.
  split; [vm_compute; reflexivity|].
  apply (X11_Get_extends_lifetime cache_one [conn_example] (5 * time.Minute)
           (6 * time.Minute) addr_1_2_3_4 {| names := ["example.com"]; expiration := 180 |}).
  - apply conn_addrs_cons. by left.
  - vm_compute. reflexivity.
  - apply Z.leb_le. vm_compute. reflexivity.
Defined.

(** X12. A sweep only removes: every entry left is an entry of the cache
    before the sweep, unchanged; the ttl, the capacity and the counters are
    as before and the length gauge is the number of entries left. *)
Theorem X12_expire_only_removes c start :
  data (expire c start) ⊆ data c ∧
  map_len (data (expire c start)) ≤ map_len (data c) ∧
  len (expire c start) = int64 (map_len (data (expire c start))) ∧
  ttl (expire c start) = ttl c ∧ size (expire c start) = size c ∧
  lookups (expire c start) = lookups c ∧ resolved (expire c start) = resolved c.
Proof.
  assert (data (expire c start) ⊆ data c) as Hsub.
  { apply map_subseteq_spec. intros a v. rewrite expire_lookup.
    destruct (data c !! a) as [w|]; [|done]. by case_decide. }
  split; [done|]. split; [|done].
  unfold map_len. apply Nat2Z.inj_le. by apply map_subseteq_size.
Qed.

Lemma expire_data_eq c1 c2 start :
  data c1 = data c2 → ttl c1 = ttl c2 → size c1 = size c2 →
  lookups c1 = lookups c2 → resolved c1 = resolved c2 →
  expire c1 start = expire c2 start.
Proof.
  intros Hd Ht Hs Hl Hr. unfold expire, with_len, with_data. simpl.
  by rewrite Hd, Ht, Hs, Hl, Hr.
Qed.

(** X13. Sweeps compose: a sweep followed by a later sweep leaves the cache
    the later sweep alone would leave; in particular a sweep repeated at the
    same instant changes nothing more. *)
Theorem X13_expire_then_later_expire c t1 t2 :
  t1 ≤ t2 → expire (expire c t1) t2 = expire c t2.
Proof.
  intros Hle.
  assert (data (expire (expire c t1) t2) = data (expire c t2)) as Hd.
  { apply map_eq. intros a. rewrite !expire_lookup. cbn [ttl expire with_len with_data].
    destruct (data c !! a) as [v|]; [|done].
    pose proof (Unix_le_mono (time.Add t1 (- ttl c)) (time.Add t2 (- ttl c))) as Hmono.
    unfold time.Add in *.
    repeat case_decide; try done; lia. }
  unfold expire at 1 3. cbn [ttl expire with_len with_data data size lookups resolved].
  unfold expire in Hd. cbn [ttl data with_len with_data] in Hd.
  unfold with_len, with_data. cbn [ttl data size lookups resolved len].
  by rewrite Hd.
Qed.

Lemma X13_expire_witness :
  expire (expire cache_one time.Minute) (6 * time.Minute) = expire cache_one (6 * time.Minute).
Proof.
  apply X13_expire_then_later_expire. apply Z.leb_le. vm_compute. reflexivity.
Defined.

(** X14. Stats consumes the two counters and nothing else: the entries are
    untouched, and after a Stats, the next Stats reports exactly the
    connections looked up by the Gets in between (here one Get), the
    resolved destinations among them, and the length gauge. *)
Theorem X14_Stats_reports_since_last_Stats c conns now :
  data (Stats c).2 = data c ∧
  (Stats (Get (Stats c).2 conns now).2).1
  = {| stats_lookups := int64 (Z.of_nat (length conns));
       stats_resolved := int64 (dest_hits (data c) conns);
       stats_len := int64 (len c) |} ∧
  stats_lookups (Stats (Stats c).2).1 = 0 ∧
  stats_resolved (Stats (Stats c).2).1 = 0.
Proof.
  split; [done|]. split; [|done].
  unfold Stats at 1. cbn [fst]. unfold Get.
  destruct conns as [|conn conns].
  { cbn [length Nat.eqb snd Stats lookups resolved Len len]. unfold dest_hits. simpl.
    f_equal. }
  cbn [length Nat.eqb].
  pose proof (Get_loop_spec (conn :: conns)
                (time.Unix (time.Add now (ttl (Stats c).2))) (data (Stats c).2) 0) as Hloop.
  destruct (Get_loop (conn :: conns) _ (data (Stats c).2) 0) as [[pairs r'] d'].
  destruct Hloop as (_ & -> & _).
  cbn [snd lookups resolved Len len Stats data]. rewrite Z.add_0_l.
  unfold add64. rewrite !Z.add_0_l, !int64_idemp. done.
Qed.

(** * Further properties of the snooper *)

(** ** The statistics loop *)

Lemma pollStats_tick_int64 s v sourceStats socketStats :
  is_int64 (polls s) → is_int64 (processed s) →
  is_int64 (captured s) → is_int64 (dropped s) →
  let s' := (pollStats_tick (s, v) sourceStats socketStats).1 in
  is_int64 (polls s') ∧ is_int64 (processed s') ∧
  is_int64 (captured s') ∧ is_int64 (dropped s').
Proof.
  intros Hp Hpr Hc Hd. destruct socketStats as [sock|]; simpl; [|done].
  split_and!; apply int64_range.
Qed.

(** X15. However many ticks succeed or fail, each counter of the snooper
    grows over a run of the statistics loop by the difference between the
    last baseline recorded and the baseline at the start (in 64-bit
    arithmetic): no interval is counted twice or lost. *)
Theorem X15_pollStats_adds_up events s v :
  is_int64 (polls s) → is_int64 (processed s) →
  is_int64 (captured s) → is_int64 (dropped s) →
  let s' := (pollStats_loop events (s, v)).1 in
  let v' := (pollStats_loop events (s, v)).2 in
  polls s' = add64 (polls s) (sub64 (prevPolls v') (prevPolls v)) ∧
  processed s' = add64 (processed s) (sub64 (prevProcessed v') (prevProcessed v)) ∧
  captured s' = add64 (captured s) (sub64 (prevCaptured v') (prevCaptured v)) ∧
  dropped s' = add64 (dropped s) (sub64 (prevDropped v') (prevDropped v)).
Proof.
  revert s v. induction events as [|e events IH]; intros s v Hp Hpr Hc Hd.
  { simpl. by rewrite !add64_sub64_same. }
  destruct e as [src [sock|]|].
  - cbn [pollStats_loop].
    pose proof (pollStats_tick_int64 s v src (Some sock) Hp Hpr Hc Hd) as Hrange.
    destruct (pollStats_tick (s, v) src (Some sock)) as [s1 v1] eqn:Htick.
    cbn [fst] in Hrange. destruct Hrange as (Hp1 & Hpr1 & Hc1 & Hd1).
    specialize (IH s1 v1 Hp1 Hpr1 Hc1 Hd1). cbv zeta in IH.
    destruct IH as (-> & -> & -> & ->).
    simpl in Htick. injection Htick as <- <-. cbn [polls processed captured dropped
      prevPolls prevProcessed prevCaptured prevDropped].
    by rewrite !add64_telescope.
  - cbn [pollStats_loop pollStats_tick]. by apply IH.
  - simpl. by rewrite !add64_sub64_same.
Qed.

Lemma X15_pollStats_witness :
  let s0 := {| captured := 0; processed := 0; dropped := 0; polls := 0; decodingErrors := 0 |} in
  let events :=
    [ticker_C (afpacket.mkStats 10 4) (Some (afpacket.mkSocketStats 12 1));
     ticker_C (afpacket.mkStats 25 9) None;
     ticker_C (afpacket.mkStats 40 15) (Some (afpacket.mkSocketStats 50 3))] in
  polls (pollStats s0 events).1 = 15 ∧ processed (pollStats s0 events).1 = 40 ∧
  captured (pollStats s0 events).1 = 50 ∧ dropped (pollStats s0 events).1 = 3.
Proof.
  intros s0 events.
  assert (is_int64 0) as H0 by (unfold is_int64; lia).
  destruct (X15_pollStats_adds_up events s0
              {| prevPolls := 0; prevProcessed := 0; prevCaptured := 0; prevDropped := 0 |}
              H0 H0 H0 H0) as (Hp & Hpr & Hc & Hd).
  unfold pollStats. rewrite Hp, Hpr, Hc, Hd. vm_compute. by split_and!.
Defined.

(** X16. The statistics loop never touches the count of decoding errors, and
    it stops at the exit signal: what comes after it changes nothing. *)
Theorem X16_pollStats_stops_at_exit before after st :
  pollStats_loop (before ++ exit :: after) st = pollStats_loop before st ∧
  decodingErrors (pollStats_loop before st).1 = decodingErrors st.1.
Proof.
  split.
  - revert st. induction before as [|e before IH]; intros st; [done|].
    destruct e as [src sock|]; simpl; [apply IH|done].
  - revert st. induction before as [|e before IH]; intros st; [done|].
    destruct e as [src sock|]; simpl; [|done]. rewrite IH.
    destruct st as [s v]. by destruct sock.
Qed.

(** ** The packet loop *)

Lemma with_decodingErrors_same s : with_decodingErrors s (decodingErrors s) = s.
Proof. by destruct s. Qed.

Lemma undecodable_count_cons turn turns :
  Z.of_nat (length (filter (λ t, undecodable t = true) (turn :: turns))) =
  (if undecodable turn then 1 else 0) +
  Z.of_nat (length (filter (λ t, undecodable t = true) turns)).
Proof.
  rewrite filter_cons. destruct (decide (undecodable turn = true)) as [Hu|Hu].
  - rewrite Hu. simpl length. lia.
  - apply not_true_is_false in Hu. rewrite Hu. lia.
Qed.

Lemma pollPackets_run turns s c :
  is_int64 (decodingErrors s) →
  pollPackets turns (s, c) =
  (with_decodingErrors s
     (int64 (decodingErrors s +
             Z.of_nat (length (filter (λ t, undecodable t = true) (turns_run turns))))),
   Add_all c (decoded (turns_run turns))).
Proof.
  revert s c. induction turns as [|turn turns IH]; intros s c Hs.
  { simpl. by rewrite Z.add_0_r, int64_id, with_decodingErrors_same. }
  cbn [pollPackets turns_run]. destruct (turn_exit turn) eqn:Hexit.
  { simpl. by rewrite Z.add_0_r, int64_id, with_decodingErrors_same. }
  rewrite undecodable_count_cons. unfold decoded, undecodable at 1.
  cbn [omap list_omap]. fold (decoded (turns_run turns)).
  destruct (turn_read turn) as [[tr|]| |]; cbn [processPacket].
  - rewrite IH by done. by rewrite Z.add_0_l.
  - rewrite IH by apply int64_range. cbn [decodingErrors with_decodingErrors].
    f_equal. unfold with_decodingErrors. cbn. f_equal.
    unfold add64. destruct (int64_decomp (decodingErrors s + 1)) as [k ->].
    apply (int64_congr _ _ k). lia.
  - rewrite IH by done. by rewrite Z.add_0_l.
  - rewrite IH by done. by rewrite Z.add_0_l.
Qed.

(** X17. The packet loop feeds the cache exactly the translations decoded
    before the exit signal, in order and each with the clock of its turn, and
    counts exactly the packets that could not be decoded; failed reads
    (EAGAIN or another error) change nothing, and no other counter moves. *)
Theorem X17_pollPackets_feeds_cache turns s c :
  is_int64 (decodingErrors s) →
  pollPackets turns (s, c) =
  (with_decodingErrors s
     (int64 (decodingErrors s +
             Z.of_nat (length (filter (λ t, undecodable t = true) (turns_run turns))))),
   Add_all c (decoded (turns_run turns))).
Proof. apply pollPackets_run. Qed.

Lemma X17_pollPackets_witness :
  let s0 := {| captured := 0; processed := 0; dropped := 0; polls := 0; decodingErrors := 0 |} in
  let turns :=
    [mkTurn (read_packet (Some tr_example)) false 0;
     mkTurn read_EAGAIN false time.Second;
     mkTurn (read_packet None) false (2 * time.Second);
     mkTurn read_error false (3 * time.Second);
     mkTurn (read_packet (Some tr_later)) true (4 * time.Second)] in
  decodingErrors (pollPackets turns (s0, small_cache)).1 = 1 ∧
  (pollPackets turns (s0, small_cache)).2 = cache_one.
Proof.
  intros s0 turns.
  assert (is_int64 (decodingErrors s0)) as H0 by (unfold is_int64; simpl; lia).
  rewrite (X17_pollPackets_feeds_cache turns s0 small_cache H0).
  split; vm_compute; reflexivity.
Defined.

(** X18. When the cache is at capacity, the packet loop drops every decoded
    translation without a trace: the cache is left exactly as it was, and the
    rejected translations are not counted as decoding errors. *)
Theorem X18_pollPackets_full_cache_unchanged turns s c :
  size c ≤ map_len (data c) →
  is_int64 (decodingErrors s) →
  (pollPackets turns (s, c)).2 = c ∧
  decodingErrors (pollPackets turns (s, c)).1 =
    int64 (decodingErrors s +
           Z.of_nat (length (filter (λ t, undecodable t = true) (turns_run turns)))).
Proof.
  intros Hfull Hs. rewrite pollPackets_run by done. split; [|done].
  cbn [snd]. induction (decoded (turns_run turns)) as [|[tr now] trs IH]; [done|].
  unfold Add_all. cbn [foldl fst snd]. by rewrite Add_rejected.
Qed.

Lemma X18_pollPackets_full_cache_witness :
  let s0 := {| captured := 0; processed := 0; dropped := 0; polls := 0; decodingErrors := 0 |} in
  let turns :=
    [mkTurn (read_packet (Some tr_b)) false 0;
     mkTurn (read_packet (Some tr_three)) false time.Second] in
  size full_cache ≤ map_len (data full_cache) ∧
  (pollPackets turns (s0, full_cache)).2 = full_cache ∧
  decodingErrors (pollPackets turns (s0, full_cache)).1 = 0.
Proof.
  intros s0 turns.
  assert (size full_cache ≤ map_len (data full_cache)) as Hfull
    by (apply Z.leb_le; vm_compute; reflexivity).
  assert (is_int64 (decodingErrors s0)) as H0 by (unfold is_int64; simpl; lia).
  destruct (X18_pollPackets_full_cache_unchanged turns s0 full_cache Hfull H0) as [Hc Hd].
  split; [exact Hfull|]. split; [exact Hc|]. rewrite Hd. vm_compute. reflexivity.
Defined.

(** ** Reading the packet statistics *)




(** * Further properties of the docker-proxy filter *)

(** ** Reading the command line of a process *)

Lemma int32_range z : is_int32 (int32 z).
Proof.
  unfold is_int32, int32. pose proof (Z.mod_pos_bound (z + 2 ^ 31) (2 ^ 32)). lia.
Qed.

Section extract_facts.

Context (Atoi : string → option Z) (ConnectionType_value : gmap string Z).

Lemma extract_step_port flag value tg tg' :
  dockerproxy.extract_step Atoi ConnectionType_value flag value tg = Some tg' →
  is_int32 (dockerproxy.target.port tg) → is_int32 (dockerproxy.target.port tg').
Proof.
  unfold dockerproxy.extract_step. intros Hstep Hport.
  destruct (String.eqb flag "-container-ip"); [by injection Hstep as <-|].
  destruct (String.eqb flag "-container-port").
  { destruct (Atoi value); [|done]. injection Hstep as <-. apply int32_range. }
  destruct (String.eqb flag "-proto").
  { destruct (ConnectionType_value !! value); [|done]. by injection Hstep as <-. }
  by injection Hstep as <-.
Qed.

Lemma extract_loop_port args tg tg' :
  dockerproxy.extract_loop Atoi ConnectionType_value args tg = Some tg' →
  is_int32 (dockerproxy.target.port tg) → is_int32 (dockerproxy.target.port tg').
Proof.
  revert tg. induction args as [|flag args IH]; intros tg Hloop Hport.
  { simpl in Hloop. by injection Hloop as <-. }
  destruct args as [|value args].
  { simpl in Hloop. by injection Hloop as <-. }
  cbn [dockerproxy.extract_loop] in Hloop.
  destruct (dockerproxy.extract_step Atoi ConnectionType_value flag value tg)
    as [tg1|] eqn:Hstep; [|done].
  apply (IH tg1); [done|]. by eapply extract_step_port.
Qed.

Lemma extractProxyTarget_Some p px :
  dockerproxy.extractProxyTarget Atoi ConnectionType_value p = Some px →
  (∃ arg0 args, dockerproxy.process.Cmdline p = arg0 :: args ∧
                HasSuffix arg0 "docker-proxy" = true) ∧
  dockerproxy.proxy.pid px = dockerproxy.process.Pid p ∧
  dockerproxy.proxy.ip px = "" ∧
  dockerproxy.target.ip (dockerproxy.proxy.target px) ≠ "" ∧
  dockerproxy.target.port (dockerproxy.proxy.target px) ≠ 0 ∧
  is_int32 (dockerproxy.target.port (dockerproxy.proxy.target px)).
Proof.
  unfold dockerproxy.extractProxyTarget. intros Hx.
  destruct (dockerproxy.process.Cmdline p) as [|arg0 args] eqn:Hcmd; [done|].
  destruct (HasSuffix arg0 "docker-proxy") eqn:Hsuf; [|done]. cbn [negb] in Hx.
  destruct (dockerproxy.extract_loop _ _ _ _) as [tg|] eqn:Hloop; [|done].
  destruct (String.eqb (dockerproxy.target.ip tg) "") eqn:Hip; [done|].
  destruct (dockerproxy.target.port tg =? 0) eqn:Hport; [done|].
  injection Hx as <-. cbn. split_and!; try done.
  - by exists arg0, args.
  - by apply String.eqb_neq.
  - by apply Z.eqb_neq.
  - eapply extract_loop_port; [done|]. unfold is_int32. simpl. lia.
Qed.

(** X20. extractProxyTarget returns a proxy only for a process whose first
    argument ends in "docker-proxy" and whose command line yields a
    container address and a non-zero container port; the proxy then carries
    the PID of the process, a port in the range of int32, and no address
    yet. *)
Theorem X20_extractProxyTarget_sound p px :
  dockerproxy.extractProxyTarget Atoi ConnectionType_value p = Some px →
  (∃ arg0 args, dockerproxy.process.Cmdline p = arg0 :: args ∧
                HasSuffix arg0 "docker-proxy" = true) ∧
  dockerproxy.proxy.pid px = dockerproxy.process.Pid p ∧
  dockerproxy.proxy.ip px = "" ∧
  dockerproxy.target.ip (dockerproxy.proxy.target px) ≠ "" ∧
  dockerproxy.target.port (dockerproxy.proxy.target px) ≠ 0 ∧
  is_int32 (dockerproxy.target.port (dockerproxy.proxy.target px)).
Proof. apply extractProxyTarget_Some. Qed.

End extract_facts.

Lemma X20_extractProxyTarget_witness :
  dockerproxy.extractProxyTarget Atoi_example ConnectionType_value_example
    docker_proxy_process
  = Some (dockerproxy.proxy.mk 4242 "" (dockerproxy.target.mk "172.17.0.2" 6379 0)) ∧
  HasSuffix "/usr/bin/docker-proxy" "docker-proxy" = true.
Proof.
  assert (dockerproxy.extractProxyTarget Atoi_example ConnectionType_value_example
            docker_proxy_process
          = Some (dockerproxy.proxy.mk 4242 "" (dockerproxy.target.mk "172.17.0.2" 6379 0)))
    as Hx by (vm_compute; reflexivity).
  split; [exact Hx|].
  destruct (X20_extractProxyTarget_sound _ _ _ _ Hx) as ((arg0 & args & Hcmd & Hsuf) & _).
  simpl in Hcmd. injection Hcmd as <- _. exact Hsuf.
Defined.

(** ** Loading the proxies *)

Section load_facts.

Context (Atoi : string → option Z) (ConnectionType_value : gmap string Z).

Lemma new_Filter_ok : Filter_ok dockerproxy.new_Filter.
Proof. split; intros k l; simpl; by rewrite lookup_empty. Qed.

Lemma LoadProxies_step_ok f p :
  Filter_ok f →
  Filter_ok (dockerproxy.LoadProxies_step Atoi ConnectionType_value f p).
Proof.
  intros [Hpid Htg]. unfold dockerproxy.LoadProxies_step.
  destruct (dockerproxy.extractProxyTarget Atoi ConnectionType_value p) as [px|] eqn:Hx;
    [|done].
  destruct (extractProxyTarget_Some _ _ _ _ Hx) as (_ & _ & Hip & _).
  pose proof (is_fresh (dom (dockerproxy.proxies f))) as Hfresh.
  apply not_elem_of_dom in Hfresh.
  set (l := fresh (dom (dockerproxy.proxies f))) in *.
  split; simpl.
  - intros k l0. rewrite lookup_insert. case_decide as Hk.
    + intros [= <-]. exists px. by rewrite lookup_insert_eq.
    + intros Hl0. destruct (Hpid k l0 Hl0) as (q & Hq & Hqk & Hqip).
      exists q. rewrite lookup_insert_ne; [done|]. intros <-. congruence.
  - intros tg l0. rewrite lookup_insert. case_decide as Hk.
    + intros [= <-]. exists px. by rewrite lookup_insert_eq.
    + intros Hl0. destruct (Htg tg l0 Hl0) as (q & Hq & Hqt).
      exists q. rewrite lookup_insert_ne; [done|]. intros <-. congruence.
Qed.

Lemma LoadProxies_step_from f p l q :
  dockerproxy.proxies (dockerproxy.LoadProxies_step Atoi ConnectionType_value f p) !! l
  = Some q →
  dockerproxy.proxies f !! l = Some q ∨
  dockerproxy.extractProxyTarget Atoi ConnectionType_value p = Some q.
Proof.
  unfold dockerproxy.LoadProxies_step.
  destruct (dockerproxy.extractProxyTarget Atoi ConnectionType_value p) as [px|];
    [|by left].
  simpl. rewrite lookup_insert. case_decide; [|by left]. intros [= <-]. by right.
Qed.

Lemma LoadProxies_foldl_ok procs f :
  Filter_ok f →
  Filter_ok (foldl (dockerproxy.LoadProxies_step Atoi ConnectionType_value) f procs) ∧
  (∀ l q,
     dockerproxy.proxies
       (foldl (dockerproxy.LoadProxies_step Atoi ConnectionType_value) f procs) !! l
     = Some q →
     dockerproxy.proxies f !! l = Some q ∨
     ∃ p, p ∈ procs ∧ dockerproxy.extractProxyTarget Atoi ConnectionType_value p = Some q).
Proof.
  revert f. induction procs as [|p procs IH]; intros f Hf; cbn [foldl].
  { split; [done|]. intros l q Hq. by left. }
  destruct (IH _ (LoadProxies_step_ok f p Hf)) as [Hok Hfrom].
  split; [done|]. intros l q Hq.
  destruct (Hfrom l q Hq) as [Hstep|(p' & Hp' & Hx)].
  - destruct (LoadProxies_step_from f p l q Hstep) as [?|Hx]; [by left|].
    right. exists p. split; [by left|done].
  - right. exists p'. split; [by right|done].
Qed.

(** X21. Whatever the processes and the order in which they are visited,
    LoadProxies builds a well-formed filter: each PID in the map by PID
    points to a proxy of that PID with no address yet, each target in the map
    by target points to a proxy of that target, and every proxy of the filter
    is what extractProxyTarget returns for one of the processes.  NewFilter
    gives the same filter, or the empty one when the processes cannot be
    listed. *)
Theorem X21_LoadProxies_well_formed procs :
  Filter_ok (dockerproxy.LoadProxies Atoi ConnectionType_value procs) ∧
  (∀ l q,
     dockerproxy.proxies (dockerproxy.LoadProxies Atoi ConnectionType_value procs) !! l
     = Some q →
     ∃ p, p ∈ procs ∧ dockerproxy.extractProxyTarget Atoi ConnectionType_value p = Some q) ∧
  dockerproxy.NewFilter Atoi ConnectionType_value (Some procs)
  = dockerproxy.LoadProxies Atoi ConnectionType_value procs ∧
  dockerproxy.NewFilter Atoi ConnectionType_value None = dockerproxy.new_Filter.
Proof.
  unfold dockerproxy.LoadProxies.
  destruct (LoadProxies_foldl_ok procs _ new_Filter_ok) as [Hok Hfrom].
  split_and!; try done.
  intros l q Hq. destruct (Hfrom l q Hq) as [Hnew|?]; [|done].
  simpl in Hnew. by rewrite lookup_empty in Hnew.
Qed.

End load_facts.

(** ** Discovering the proxy addresses and filtering *)

Lemma discover_proxyByTarget conns f :
  dockerproxy.proxyByTarget (dockerproxy.discover conns f) = dockerproxy.proxyByTarget f.
Proof.
  revert f. induction conns as [|c conns IH]; intros f; [done|].
  cbn [dockerproxy.discover].
  destruct (base.size (dockerproxy.proxyByPID f) =? 0)%nat; [done|].
  destruct (dockerproxy.proxyByPID f !! dockerproxy.model.Pid c) as [l|]; [|apply IH].
  destruct (dockerproxy.proxies f !! l) as [p|]; [|apply IH].
  destruct (String.eqb (dockerproxy.discoverProxyIP p c) ""); [apply IH|].
  by rewrite IH.
Qed.

(** What the discovery loop does to a well-formed filter. *)
Lemma discover_spec conns f :
  Filter_ok f →
  Filter_ok (dockerproxy.discover conns f) ∧
  dockerproxy.proxyByPID (dockerproxy.discover conns f) ⊆ dockerproxy.proxyByPID f ∧
  (∀ l, dockerproxy.proxies f !! l = None →
        dockerproxy.proxies (dockerproxy.discover conns f) !! l = None) ∧
  (∀ l p, dockerproxy.proxies f !! l = Some p →
     ∃ p', dockerproxy.proxies (dockerproxy.discover conns f) !! l = Some p' ∧
           dockerproxy.proxy.pid p' = dockerproxy.proxy.pid p ∧
           dockerproxy.proxy.target p' = dockerproxy.proxy.target p ∧
           (p' = p ∨
            (dockerproxy.proxy.ip p = "" ∧ dockerproxy.proxy.ip p' ≠ "" ∧
             ∃ c, c ∈ conns ∧ dockerproxy.model.Pid c = dockerproxy.proxy.pid p ∧
                  dockerproxy.discoverProxyIP p c = dockerproxy.proxy.ip p'))).
Proof.
  revert f. induction conns as [|c conns IH]; intros f Hf.
  { simpl. split_and!; try done. intros l p Hp. exists p. by split_and!; [..|left]. }
  assert (∀ f0, Filter_ok f0 →
            dockerproxy.proxyByPID f0 ⊆ dockerproxy.proxyByPID f →
            (∀ l, dockerproxy.proxies f !! l = dockerproxy.proxies f0 !! l) →
            let f' := dockerproxy.discover conns f0 in
            Filter_ok f' ∧ dockerproxy.proxyByPID f' ⊆ dockerproxy.proxyByPID f ∧
            (∀ l, dockerproxy.proxies f !! l = None → dockerproxy.proxies f' !! l = None) ∧
            (∀ l p, dockerproxy.proxies f !! l = Some p →
               ∃ p', dockerproxy.proxies f' !! l = Some p' ∧
                     dockerproxy.proxy.pid p' = dockerproxy.proxy.pid p ∧
                     dockerproxy.proxy.target p' = dockerproxy.proxy.target p ∧
                     (p' = p ∨
                      (dockerproxy.proxy.ip p = "" ∧ dockerproxy.proxy.ip p' ≠ "" ∧
                       ∃ c', c' ∈ c :: conns ∧
                             dockerproxy.model.Pid c' = dockerproxy.proxy.pid p ∧
                             dockerproxy.discoverProxyIP p c' = dockerproxy.proxy.ip p'))))
    as Hskip.
  { intros f0 Hf0 Hsub Hsame f'. subst f'.
    destruct (IH f0 Hf0) as (Hok & Hpid & Hnone & Hsome). split_and!.
    - done.
    - by etrans.
    - intros l Hl. apply Hnone. by rewrite <- Hsame.
    - intros l p Hp. rewrite Hsame in Hp.
      destruct (Hsome l p Hp) as (p' & Hp' & Hpp & Hpt & Hcase).
      exists p'. split_and!; try done.
      destruct Hcase as [->|(Hip & Hip' & c' & Hc' & Hcp & Hd)]; [by left|].
      right. split_and!; try done. exists c'. split; [by right|done]. }
  cbn [dockerproxy.discover].
  destruct (base.size (dockerproxy.proxyByPID f) =? 0)%nat.
  { split_and!; try done. intros l p Hp. exists p. by split_and!; [..|left]. }
  destruct (dockerproxy.proxyByPID f !! dockerproxy.model.Pid c) as [l|] eqn:Hl;
    [|by apply Hskip].
  destruct (dockerproxy.proxies f !! l) as [p|] eqn:Hp; [|by apply Hskip].
  destruct (String.eqb (dockerproxy.discoverProxyIP p c) "") eqn:Hd; [by apply Hskip|].
  apply String.eqb_neq in Hd.
  destruct Hf as [Hfpid Hftg].
  destruct (Hfpid _ _ Hl) as (p0 & Hp0 & Hp0pid & Hp0ip).
  rewrite Hp in Hp0. injection Hp0 as <-.
  set (p1 := {| dockerproxy.proxy.pid := dockerproxy.proxy.pid p;
                dockerproxy.proxy.ip := dockerproxy.discoverProxyIP p c;
                dockerproxy.proxy.target := dockerproxy.proxy.target p |}).
  set (f1 := {| dockerproxy.proxies := <[l := p1]> (dockerproxy.proxies f);
                dockerproxy.proxyByTarget := dockerproxy.proxyByTarget f;
                dockerproxy.proxyByPID :=
                  delete (dockerproxy.model.Pid c) (dockerproxy.proxyByPID f) |}).
  assert (Filter_ok f1) as Hf1.
  { split; simpl.
    - intros k l0 Hk. apply lookup_delete_Some in Hk as [Hne Hk].
      destruct (Hfpid k l0 Hk) as (q & Hq & Hqk & Hqip).
      exists q. rewrite lookup_insert_ne; [done|]. intros <-. congruence.
    - intros tg l0 Htg. destruct (Hftg tg l0 Htg) as (q & Hq & Hqt).
      destruct (decide (l0 = l)) as [->|Hne].
      + exists p1. rewrite lookup_insert_eq. split; [done|]. simpl. congruence.
      + exists q. by rewrite lookup_insert_ne. }
  destruct (IH f1 Hf1) as (Hok & Hpid & Hnone & Hsome). split_and!.
  - done.
  - etrans; [done|]. apply delete_subseteq.
  - intros l0 Hl0. apply Hnone. simpl. rewrite lookup_insert_ne; [done|]. congruence.
  - intros l0 q Hq. destruct (decide (l0 = l)) as [->|Hne].
    + rewrite Hp in Hq. injection Hq as <-.
      destruct (Hsome l p1) as (p' & Hp' & Hpp & Hpt & Hcase).
      { simpl. by rewrite lookup_insert_eq. }
      exists p'. split_and!; try done.
      assert (p' = p1) as ->.
      { destruct Hcase as [?|(Hip1 & _)]; [done|]. simpl in Hip1. congruence. }
      right. split_and!; try done. exists c. split; [by left|]. split; [|done]. congruence.
    + destruct (Hsome l0 q) as (p' & Hp' & Hpp & Hpt & Hcase).
      { simpl. by rewrite lookup_insert_ne. }
      exists p'. split_and!; try done.
      destruct Hcase as [->|(Hip & Hip' & c' & Hc' & Hcp & Hdc)]; [by left|].
      right. split_and!; try done. exists c'. split; [by right|done].
Qed.

Lemma Filter_Filter_empty f conns :
  dockerproxy.proxyByPID f = ∅ → dockerproxy.Filter_Filter f conns = (f, conns).
Proof.
  intros Hempty. unfold dockerproxy.Filter_Filter.
  by rewrite Hempty, map_size_empty.
Qed.

Lemma Filter_Filter_nonempty f conns :
  dockerproxy.proxyByPID f ≠ ∅ →
  dockerproxy.Filter_Filter f conns =
  (dockerproxy.discover conns f,
   filter (λ c, dockerproxy.isProxied (dockerproxy.discover conns f) c = false) conns).
Proof.
  intros Hne. unfold dockerproxy.Filter_Filter.
  apply map_size_non_empty_iff in Hne.
  by destruct (Nat.eqb_spec (base.size (dockerproxy.proxyByPID f)) 0).
Qed.

Lemma Filter_Filter_state f conns :
  (dockerproxy.Filter_Filter f conns).1 = f ∨
  (dockerproxy.Filter_Filter f conns).1 = dockerproxy.discover conns f.
Proof.
  unfold dockerproxy.Filter_Filter.
  destruct (base.size (dockerproxy.proxyByPID f) =? 0)%nat; [by left|by right].
Qed.

(** X22. Filter keeps the filter well formed and never changes which proxy a
    target points to: the map by target is unchanged, the map by PID only
    loses entries, no proxy object appears or disappears, and a proxy keeps
    its PID and its target. *)
Theorem X22_Filter_keeps_filter_well_formed f conns :
  Filter_ok f →
  let f' := (dockerproxy.Filter_Filter f conns).1 in
  Filter_ok f' ∧
  dockerproxy.proxyByTarget f' = dockerproxy.proxyByTarget f ∧
  dockerproxy.proxyByPID f' ⊆ dockerproxy.proxyByPID f ∧
  dom (dockerproxy.proxies f') = dom (dockerproxy.proxies f) ∧
  (∀ l p p', dockerproxy.proxies f !! l = Some p → dockerproxy.proxies f' !! l = Some p' →
     dockerproxy.proxy.pid p' = dockerproxy.proxy.pid p ∧
     dockerproxy.proxy.target p' = dockerproxy.proxy.target p).
Proof.
  intros Hf f'. subst f'.
  destruct (Filter_Filter_state f conns) as [->| ->].
  { split_and!; try done. intros l p p' Hp Hp'. rewrite Hp in Hp'. by injection Hp' as <-. }
  destruct (discover_spec conns f Hf) as (Hok & Hpid & Hnone & Hsome).
  split_and!; try done.
  - apply discover_proxyByTarget.
  - apply set_eq. intros l. rewrite !elem_of_dom. split.
    + intros [p' Hp']. destruct (dockerproxy.proxies f !! l) as [p|] eqn:Hp; [by eexists|].
      rewrite (Hnone l Hp) in Hp'. done.
    + intros [p Hp]. destruct (Hsome l p Hp) as (p' & Hp' & _). by eexists.
  - intros l p p' Hp Hp'. destruct (Hsome l p Hp) as (q & Hq & Hqp & Hqt & _).
    rewrite Hq in Hp'. by injection Hp' as <-.
Qed.

Lemma filter_example_ok : Filter_ok filter_example.
Proof. apply LoadProxies_foldl_ok, new_Filter_ok. Qed.

Lemma X22_Filter_witness :
  Filter_ok filter_example ∧
  Filter_ok (dockerproxy.Filter_Filter filter_example [conn_plain; conn_of_proxy]).1 ∧
  dockerproxy.proxyByTarget (dockerproxy.Filter_Filter filter_example
                               [conn_plain; conn_of_proxy]).1
  = dockerproxy.proxyByTarget filter_example.
Proof.
  split; [exact filter_example_ok|].
  destruct (X22_Filter_keeps_filter_well_formed filter_example [conn_plain; conn_of_proxy]
              filter_example_ok) as (Hok & Htg & _).
  split; [exact Hok|exact Htg].
Defined.



(** X24. Filter never drops a connection that has nothing to do with a proxy:
    a connection of the payload neither end of which (with the type of the
    connection) is the target of a proxy is in the payload afterwards. *)
Theorem X24_Filter_keeps_unrelated f conns c :
  c ∈ conns →
  dockerproxy.proxyByTarget f !! end_target (dockerproxy.model.Laddr c) c = None →
  dockerproxy.proxyByTarget f !! end_target (dockerproxy.model.Raddr c) c = None →
  c ∈ (dockerproxy.Filter_Filter f conns).2.
Proof.
  intros Hc HL HR. destruct (decide (dockerproxy.proxyByPID f = ∅)) as [Hempty|Hne].
  - by rewrite Filter_Filter_empty.
  - rewrite Filter_Filter_nonempty by done. cbn [snd].
    apply list_elem_of_filter. split; [|done].
    unfold dockerproxy.isProxied. rewrite discover_proxyByTarget.
    unfold end_target in HL, HR. by rewrite HL, HR.
Qed.

Lemma X24_Filter_keeps_unrelated_witness :
  conn_plain ∈ (dockerproxy.Filter_Filter filter_example
                  [conn_proxied; conn_plain; conn_of_proxy]).2.
Proof.
  apply X24_Filter_keeps_unrelated.
  - apply elem_of_cons. right. by left.
  - vm_compute. reflexivity.
  - vm_compute. reflexivity.
Defined.

(** X25. Filter sets the address of a proxy at most once and only from a
    connection of the proxy's own process: after Filter on a well-formed
    filter, a proxy is either as it was, or it had no address before and now
    has the address that discoverProxyIP finds in a connection of the
    payload whose PID is the proxy's (the other end of a connection one end
    of which is its target).  A proxy that had an address keeps it. *)
Theorem X25_Filter_discovers_from_own_connections f conns l p :
  Filter_ok f → dockerproxy.proxies f !! l = Some p →
  ∃ p', dockerproxy.proxies (dockerproxy.Filter_Filter f conns).1 !! l = Some p' ∧
        (p' = p ∨
         (dockerproxy.proxy.ip p = "" ∧ dockerproxy.proxy.ip p' ≠ "" ∧
          ∃ c, c ∈ conns ∧ dockerproxy.model.Pid c = dockerproxy.proxy.pid p ∧
               dockerproxy.discoverProxyIP p c = dockerproxy.proxy.ip p' ∧
               ((end_target (dockerproxy.model.Laddr c) c =
                   {| dockerproxy.target.ip := dockerproxy.target.ip (dockerproxy.proxy.target p);
                      dockerproxy.target.port :=
                        dockerproxy.target.port (dockerproxy.proxy.target p);
                      dockerproxy.target.proto := dockerproxy.model.Type_ c |} ∧
                 dockerproxy.proxy.ip p' = dockerproxy.model.Ip (dockerproxy.model.Raddr c)) ∨
                (end_target (dockerproxy.model.Raddr c) c =
                   {| dockerproxy.target.ip := dockerproxy.target.ip (dockerproxy.proxy.target p);
                      dockerproxy.target.port :=
                        dockerproxy.target.port (dockerproxy.proxy.target p);
                      dockerproxy.target.proto := dockerproxy.model.Type_ c |} ∧
                 dockerproxy.proxy.ip p' = dockerproxy.model.Ip (dockerproxy.model.Laddr c))))).
Proof.
  intros Hf Hp. destruct (Filter_Filter_state f conns) as [->| ->].
  { exists p. split; [done|by left]. }
  destruct (discover_spec conns f Hf) as (_ & _ & _ & Hsome).
  destruct (Hsome l p Hp) as (p' & Hp' & _ & _ & Hcase).
  exists p'. split; [done|].
  destruct Hcase as [->|(Hip & Hip' & c & Hc & Hcp & Hd)]; [by left|].
  right. split_and!; try done. exists c. split_and!; try done.
  unfold dockerproxy.discoverProxyIP in Hd. unfold end_target.
  destruct (String.eqb_spec (dockerproxy.model.Ip (dockerproxy.model.Laddr c))
              (dockerproxy.target.ip (dockerproxy.proxy.target p))) as [HLip|_];
    [destruct (Z.eqb_spec (dockerproxy.model.Port (dockerproxy.model.Laddr c))
                 (dockerproxy.target.port (dockerproxy.proxy.target p))) as [HLport|_]|];
    cbn [andb] in Hd.
  { left. by rewrite HLip, HLport. }
  all: destruct (String.eqb_spec (dockerproxy.model.Ip (dockerproxy.model.Raddr c))
              (dockerproxy.target.ip (dockerproxy.proxy.target p))) as [HRip|_];
    [destruct (Z.eqb_spec (dockerproxy.model.Port (dockerproxy.model.Raddr c))
                 (dockerproxy.target.port (dockerproxy.proxy.target p))) as [HRport|_]|];
    cbn [andb] in Hd; try (by rewrite <- Hd in Hip');
    right; by rewrite HRip, HRport.
Qed.

Lemma X25_Filter_discovers_witness :
  Filter_ok filter_example ∧
  dockerproxy.proxies filter_example !! 0%nat
  = Some (dockerproxy.proxy.mk 4242 "" (dockerproxy.target.mk "172.17.0.2" 6379 0)) ∧
  dockerproxy.proxies (dockerproxy.Filter_Filter filter_example [conn_plain; conn_of_proxy]).1
    !! 0%nat
  = Some (dockerproxy.proxy.mk 4242 "172.17.0.1" (dockerproxy.target.mk "172.17.0.2" 6379 0)).
Proof.
  assert (dockerproxy.proxies filter_example !! 0%nat
          = Some (dockerproxy.proxy.mk 4242 "" (dockerproxy.target.mk "172.17.0.2" 6379 0)))
    as Hp by (vm_compute; reflexivity).
  split; [exact filter_example_ok|]. split; [exact Hp|].
  destruct (X25_Filter_discovers_from_own_connections filter_example
              [conn_plain; conn_of_proxy] 0%nat _ filter_example_ok Hp) as (p' & Hp' & _).
  rewrite Hp'. vm_compute in Hp'. symmetry. exact Hp'.
Defined.
